(** * MixedReality-UXTools-Unreal: touch pointer and follow component

    A shallow embedding of [UTouchPointer] (TouchPointer.cpp) and of the
    configuration of [UFollowComponent] (FollowComponent.h).

    Scene components and pointers are identified by [positive] numbers.
    The set of touched targets is a [gset]; the static pointer registry
    is a list, as [TArray] is.  Every call into [ITouchPointerTarget]
    is recorded together with the state of the calling pointer at the
    moment of the call, which is what the callee can observe.  Handlers
    are taken to observe the pointer only: they do not call back into it. *)

From Stdlib Require Import QArith Lqa.
From stdpp Require Import base option list gmap sets fin_sets functions.

Local Open Scope nat_scope.

#[local] Set Warnings "-clear-no-such-hyp".

(** ** Scene components and the target interface *)

Definition node := positive.
Definition ptr := positive.

(** What a pointer sees of the scene graph: [USceneComponent::GetAttachParent],
    the class test of [UTouchPointer::ImplementsTargetInterface], and whether
    a [TWeakObjectPtr] to a component still resolves ([wComp.Get()]). *)
Record Scene := {
  GetAttachParent : node → option node;
  ImplementsTargetInterface : node → bool;
  Resolves : node → bool
}.

(** The four [ITouchPointerTarget::Execute_*] entry points used by the pointer. *)
Inductive Notification :=
  | TouchStarted
  | TouchEnded
  | PinchStarted
  | PinchEnded.

Global Instance Notification_eq_dec : EqDecision Notification.
Proof. solve_decision. Defined.

(** ** The pointer object *)

(** Modelled from the spec: TouchPointer.h is not among the sources, so the
    declarations of the members used by TouchPointer.cpp are taken from the
    data model of the specification: the touched targets are a set of weak
    references keyed by identity, next to a pinch flag and a touch radius. *)
Record UTouchPointer := {
  TouchedTargets : gset node;
  bIsPinched : bool;
  TouchRadius : Q;
  SphereRadius : Q
}.

(** [Execute_X(comp, this)]: the notification, the component it is sent to,
    and the pointer as the handler finds it. *)
Record Call := {
  what : Notification;
  callee : node;
  seen : UTouchPointer
}.

Definition Execute (n : Notification) (comp : node) (this : UTouchPointer) : Call :=
  {| what := n; callee := comp; seen := this |}.

(** [TSet::Add]: inserting a present key leaves the set as it is. *)
Definition TSet_Add (comp : node) (s : gset node) : gset node := {[comp]} ∪ s.

(** [TSet::Remove]: the number of removed elements and the remaining set. *)
Definition TSet_Remove (comp : node) (s : gset node) : nat * gset node :=
  (if decide (comp ∈ s) then 1 else 0, s ∖ {[comp]}).

Definition set_TouchedTargets (s : gset node) (this : UTouchPointer) : UTouchPointer :=
  {| TouchedTargets := s; bIsPinched := bIsPinched this;
     TouchRadius := TouchRadius this; SphereRadius := SphereRadius this |}.

Definition set_bIsPinched (b : bool) (this : UTouchPointer) : UTouchPointer :=
  {| TouchedTargets := TouchedTargets this; bIsPinched := b;
     TouchRadius := TouchRadius this; SphereRadius := SphereRadius this |}.

(** Modelled from the spec: the membership test on the touched targets that
    a pointer offers to its targets (declared, if at all, in TouchPointer.h). *)
Definition IsTouching (this : UTouchPointer) (comp : node) : bool :=
  bool_decide (comp ∈ TouchedTargets this).

(** The result of a call that answers with a [bool]: the answer, the pointer
    afterwards, and the notifications sent, in order. *)
Definition Outcome : Type := bool * UTouchPointer * list Call.

(** The overlap delegates have no return value: the answer is dropped. *)
Definition drop_answer (o : option Outcome) : option (UTouchPointer * list Call) :=
  match o with
  | Some (_, this', calls) => Some (this', calls)
  | None => None
  end.

Section Pointer.
Variable sc : Scene.

(** [UTouchPointer::TryStartTouching].  The [while (comp)] loop follows
    attach parents; [fuel] bounds the number of iterations and [None] is
    returned only when it is exhausted. *)
Fixpoint TryStartTouching (fuel : nat) (comp : option node) (this : UTouchPointer)
  : option Outcome :=
  match fuel with
  | O => None
  | S fuel' =>
    match comp with
    | None => Some (false, this, [])
    | Some c =>
      if ImplementsTargetInterface sc c then
        let started := Execute TouchStarted c this in
        let this' := set_TouchedTargets (TSet_Add c (TouchedTargets this)) this in
        Some (true, this',
              started :: (if bIsPinched this' then [Execute PinchStarted c this'] else []))
      else TryStartTouching fuel' (GetAttachParent sc c) this
    end
  end.

(** [UTouchPointer::TryStopTouching]. *)
Fixpoint TryStopTouching (fuel : nat) (comp : option node) (this : UTouchPointer)
  : option Outcome :=
  match fuel with
  | O => None
  | S fuel' =>
    match comp with
    | None => Some (false, this, [])
    | Some c =>
      let '(removed, rest) := TSet_Remove c (TouchedTargets this) in
      if bool_decide (0 < removed) then
        let this' := set_TouchedTargets rest this in
        Some (true, this',
              if ImplementsTargetInterface sc c then
                (if bIsPinched this' then [Execute PinchEnded c this'] else [])
                ++ [Execute TouchEnded c this']
              else [])
      else TryStopTouching fuel' (GetAttachParent sc c) this
    end
  end.

(** [UTouchPointer::OnPointerBeginOverlap]. *)
Definition OnPointerBeginOverlap (fuel : nat) (OtherComp : option node)
    (this : UTouchPointer) : option (UTouchPointer * list Call) :=
  drop_answer (TryStartTouching fuel OtherComp this).

(** [UTouchPointer::OnPointerEndOverlap]. *)
Definition OnPointerEndOverlap (fuel : nat) (OtherComp : option node)
    (this : UTouchPointer) : option (UTouchPointer * list Call) :=
  drop_answer (TryStopTouching fuel OtherComp this).

(** The body of the loop of [UTouchPointer::StopAllTouching]. *)
Definition StopTouching_one (this : UTouchPointer) (wComp : node) : list Call :=
  if Resolves sc wComp then
    (if bIsPinched this then [Execute PinchEnded wComp this] else [])
    ++ [Execute TouchEnded wComp this]
  else [].

(** [UTouchPointer::StopAllTouching]. *)
Definition StopAllTouching (this : UTouchPointer) : UTouchPointer * list Call :=
  (set_TouchedTargets ∅ this,
   flat_map (StopTouching_one this) (elements (TouchedTargets this))).

(** The body of the loop of [UTouchPointer::SetPinched]: the block after
    [if (Enable)] is not an [else] branch and runs in both cases. *)
Definition SetPinched_one (Enable : bool) (this : UTouchPointer) (wComp : node)
  : list Call :=
  if Resolves sc wComp then
    (if Enable then [Execute PinchStarted wComp this] else [])
    ++ [Execute PinchEnded wComp this]
  else [].

(** [UTouchPointer::SetPinched]. *)
Definition SetPinched (Enable : bool) (this : UTouchPointer)
  : UTouchPointer * list Call :=
  if negb (eqb (bIsPinched this) Enable) then
    (set_bIsPinched Enable this,
     flat_map (SetPinched_one Enable this) (elements (TouchedTargets this)))
  else (this, []).

(** [UTouchPointer::GetPinched]. *)
Definition GetPinched (this : UTouchPointer) : bool := bIsPinched this.

(** [UTouchPointer::SetTouchRadius]: the member and the sphere are given the
    radius.  Overlap events that the engine raises when the sphere is resized
    reach the pointer through its overlap delegates; they are operations of
    their own in a sequence of operations, not part of this function. *)
Definition SetTouchRadius (radius : Q) (this : UTouchPointer) : UTouchPointer :=
  {| TouchedTargets := TouchedTargets this; bIsPinched := bIsPinched this;
     TouchRadius := radius; SphereRadius := radius |}.

End Pointer.

(** ** The static registry and the life cycle *)

(** [TArray::Add] appends. *)
Definition TArray_Add (p : ptr) (a : list ptr) : list ptr := a ++ [p].

(** [TArray::Remove] deletes every element equal to the item. *)
Definition TArray_Remove (p : ptr) (a : list ptr) : list ptr :=
  filter (λ q, q ≠ p) a.

(** The static member [UTouchPointer::Pointers] and the pointer objects. *)
Record World := {
  Pointers : list ptr;
  objects : ptr → UTouchPointer
}.

Definition set_object (p : ptr) (this : UTouchPointer) (w : World) : World :=
  {| Pointers := Pointers w; objects := <[p := this]> (objects w) |}.

(** [UTouchPointer::GetAllPointers]. *)
Definition GetAllPointers (w : World) : list ptr := Pointers w.

(** [UTouchPointer::BeginPlay]: the overlap delegates are bound by the engine
    and the pointer registers itself. *)
Definition BeginPlay (p : ptr) (w : World) : World :=
  {| Pointers := TArray_Add p (Pointers w); objects := objects w |}.

(** [UTouchPointer::EndPlay]. *)
Definition EndPlay (sc : Scene) (p : ptr) (w : World) : World * list Call :=
  let '(this', calls) := StopAllTouching sc (objects w p) in
  ({| Pointers := TArray_Remove p (Pointers w);
      objects := <[p := this']> (objects w) |}, calls).

(** The member functions of TouchPointer.cpp that act on a pointer or on the
    registry, as the engine and game code may call them. *)
Inductive Op :=
  | CallBeginPlay (p : ptr)
  | CallEndPlay (p : ptr)
  | CallOnPointerBeginOverlap (p : ptr) (OtherComp : option node)
  | CallOnPointerEndOverlap (p : ptr) (OtherComp : option node)
  | CallSetPinched (p : ptr) (Enable : bool)
  | CallGetPinched (p : ptr)
  | CallSetTouchRadius (p : ptr) (radius : Q)
  | CallGetAllPointers
  | CallTryStartTouching (p : ptr) (comp : option node)
  | CallTryStopTouching (p : ptr) (comp : option node)
  | CallStopAllTouching (p : ptr).

(** Notifications tagged with the pointer that sent them. *)
Definition sent_by (p : ptr) (calls : list Call) : list (ptr * Call) :=
  map (pair p) calls.

Definition step (sc : Scene) (fuel : nat) (o : Op) (w : World)
  : option (World * list (ptr * Call)) :=
  match o with
  | CallBeginPlay p => Some (BeginPlay p w, [])
  | CallEndPlay p =>
    let '(w', calls) := EndPlay sc p w in Some (w', sent_by p calls)
  | CallOnPointerBeginOverlap p OtherComp =>
    match OnPointerBeginOverlap sc fuel OtherComp (objects w p) with
    | Some (this', calls) => Some (set_object p this' w, sent_by p calls)
    | None => None
    end
  | CallOnPointerEndOverlap p OtherComp =>
    match OnPointerEndOverlap sc fuel OtherComp (objects w p) with
    | Some (this', calls) => Some (set_object p this' w, sent_by p calls)
    | None => None
    end
  | CallSetPinched p Enable =>
    let '(this', calls) := SetPinched sc Enable (objects w p) in
    Some (set_object p this' w, sent_by p calls)
  | CallGetPinched p => Some (w, [])
  | CallSetTouchRadius p radius =>
    Some (set_object p (SetTouchRadius radius (objects w p)) w, [])
  | CallGetAllPointers => Some (w, [])
  | CallTryStartTouching p comp =>
    match TryStartTouching sc fuel comp (objects w p) with
    | Some (_, this', calls) => Some (set_object p this' w, sent_by p calls)
    | None => None
    end
  | CallTryStopTouching p comp =>
    match TryStopTouching sc fuel comp (objects w p) with
    | Some (_, this', calls) => Some (set_object p this' w, sent_by p calls)
    | None => None
    end
  | CallStopAllTouching p =>
    let '(this', calls) := StopAllTouching sc (objects w p) in
    Some (set_object p this' w, sent_by p calls)
  end.

Fixpoint run (sc : Scene) (fuel : nat) (ops : list Op) (w : World)
  : option (World * list (ptr * Call)) :=
  match ops with
  | [] => Some (w, [])
  | o :: ops' =>
    match step sc fuel o w with
    | Some (w', calls) =>
      match run sc fuel ops' w' with
      | Some (w'', calls') => Some (w'', calls ++ calls')
      | None => None
      end
    | None => None
    end
  end.

(** At program start the registry is empty. *)
Definition program_start (objs : ptr → UTouchPointer) : World :=
  {| Pointers := []; objects := objs |}.

(** ** Vocabulary of the specification *)

Section Chains.
Variable sc : Scene.

(** The component [d] attachment steps above [comp], if the chain is that long. *)
Fixpoint ancestor (d : nat) (comp : option node) : option node :=
  match d with
  | O => comp
  | S d' => ancestor d' (comp ≫= GetAttachParent sc)
  end.

(** No component strictly less than [d] steps above [comp] satisfies [P]. *)
Definition none_below (P : node → Prop) (d : nat) (comp : option node) : Prop :=
  ∀ d' a, d' < d → ancestor d' comp = Some a → ¬ P a.

(** [r] is what an upward walk from [comp] looking for [P] arrives at after
    [d] steps: the nearest component satisfying [P], or the end of the chain. *)
Definition walk_finds (P : node → Prop) (comp : option node) (d : nat)
    (r : option node) : Prop :=
  none_below P d comp ∧ ancestor d comp = r ∧
  match r with Some t => P t | None => True end.

Definition is_target (c : node) : Prop := ImplementsTargetInterface sc c = true.

(** The nearest ancestor of [comp], itself included, that implements the
    target interface. *)
Definition nearest_target := walk_finds is_target.

(** The nearest ancestor of [comp], itself included, that [this] touches. *)
Definition nearest_touched (this : UTouchPointer) :=
  walk_finds (λ c, c ∈ TouchedTargets this).

(** Every attachment chain of the scene ends within [H] steps. *)
Definition chains_end_within (H : nat) : Prop :=
  ∀ c, ancestor H (Some c) = None.

(** Only components that implement the target interface are ever touched. *)
Definition touches_targets_only (this : UTouchPointer) : Prop :=
  ∀ c, c ∈ TouchedTargets this → is_target c.

End Chains.

Global Instance is_target_dec sc c : Decision (is_target sc c).
Proof. unfold is_target. apply _. Defined.

(** Projections of a sequence of calls. *)
Definition sent (calls : list Call) : list (Notification * node) :=
  map (λ c, (what c, callee c)) calls.

Definition to_target (t : node) (calls : list Call) : list Call :=
  filter (λ c, callee c = t) calls.

Definition count_of (n : Notification) (calls : list Call) : nat :=
  length (filter (λ c, what c = n) calls).

(** The touched targets whose weak pointer still resolves. *)
Definition live_targets (sc : Scene) (this : UTouchPointer) : list node :=
  filter (λ c, Resolves sc c = true) (elements (TouchedTargets this)).

(** What [TryStartTouching] answers when the walk arrives at [r]. *)
Definition started (this : UTouchPointer) (r : option node) : Outcome :=
  match r with
  | Some t =>
    let this' := set_TouchedTargets ({[t]} ∪ TouchedTargets this) this in
    (true, this',
     Execute TouchStarted t this ::
     (if bIsPinched this then [Execute PinchStarted t this'] else []))
  | None => (false, this, [])
  end.

(** What [TryStopTouching] answers when the walk arrives at [r]. *)
Definition stopped (sc : Scene) (this : UTouchPointer) (r : option node) : Outcome :=
  match r with
  | Some t =>
    let this' := set_TouchedTargets (TouchedTargets this ∖ {[t]}) this in
    (true, this',
     if ImplementsTargetInterface sc t then
       (if bIsPinched this then [Execute PinchEnded t this'] else [])
       ++ [Execute TouchEnded t this']
     else [])
  | None => (false, this, [])
  end.

(** ** A small scene used for the worked examples

    Component 1 is a target attached to the plain component 2; component 3 is
    a plain collision primitive attached to 1; 4 is a free-standing target;
    5 is a target that has been destroyed; 6 is a plain component under 2. *)
Definition demo_scene : Scene :=
  {| GetAttachParent := λ c,
       match c with
       | 3 => Some 1 | 1 => Some 2 | 6 => Some 2 | _ => None
       end%positive;
     ImplementsTargetInterface := λ c,
       match c with 1 | 4 | 5 => true | _ => false end%positive;
     Resolves := λ c, match c with 5 => false | _ => true end%positive |}.

Definition demo_pointer (touched : gset node) (pinched : bool) : UTouchPointer :=
  {| TouchedTargets := touched; bIsPinched := pinched;
     TouchRadius := 1%Q; SphereRadius := 1%Q |}.

(** ** Sequences of overlap events on one component *)

Inductive Overlap :=
  | Begin
  | End_.

Definition OnPointerOverlap (sc : Scene) (fuel : nat) (OtherComp : option node)
    (e : Overlap) (this : UTouchPointer) : option (UTouchPointer * list Call) :=
  match e with
  | Begin => OnPointerBeginOverlap sc fuel OtherComp this
  | End_ => OnPointerEndOverlap sc fuel OtherComp this
  end.

Fixpoint overlaps (sc : Scene) (fuel : nat) (OtherComp : option node)
    (es : list Overlap) (this : UTouchPointer) : option (UTouchPointer * list Call) :=
  match es with
  | [] => Some (this, [])
  | e :: es' =>
    match OnPointerOverlap sc fuel OtherComp e this with
    | Some (this', calls) =>
      match overlaps sc fuel OtherComp es' this' with
      | Some (this'', calls') => Some (this'', calls ++ calls')
      | None => None
      end
    | None => None
    end
  end.

(** [k] times an overlap-begin directly followed by its overlap-end. *)
Fixpoint begin_end_pairs (k : nat) : list Overlap :=
  match k with
  | O => []
  | S k' => Begin :: End_ :: begin_end_pairs k'
  end.

(** The touched set after at least one begin/end pair on a component whose
    walk arrives at [r]. *)
Definition without_target (r : option node) (s : gset node) : gset node :=
  match r with
  | Some t => s ∖ {[t]}
  | None => s
  end.

(** [p] has begun play in [ops] and has not ended play since. *)
Definition activated_not_deactivated (p : ptr) (ops : list Op) : Prop :=
  ∃ before after,
    ops = before ++ CallBeginPlay p :: after ∧ CallEndPlay p ∉ after.

(** The registry after one operation, as the life cycle prescribes it. *)
Definition registry_after (o : Op) (a : list ptr) : list ptr :=
  match o with
  | CallBeginPlay p => a ++ [p]
  | CallEndPlay p => filter (λ q, q ≠ p) a
  | _ => a
  end.

(** ** The follow component *)

Inductive EFollowOrientBehavior :=
  | FaceCamera
  | WorldLock.

(** The author-set properties of [UFollowComponent] (FollowComponent.h);
    [float] properties are read as rationals. *)
Record UFollowComponent := {
  OrientationType : EFollowOrientBehavior;
  MoveToDefaultDistanceLerpTime : Q;
  MinimumDistance : Q;
  MaximumDistance : Q;
  DefaultDistance : Q;
  MaxViewHorizontalDegrees : Q;
  MaxViewVerticalDegrees : Q;
  OrientToCameraDeadzoneDegrees : Q;
  bIgnoreAngleClamp : bool;
  bIgnoreDistanceClamp : bool;
  bIgnoreCameraPitchAndRoll : bool;
  PitchOffset : Q;
  VerticalMaxDistance : Q
}.

(** The default member initialisers of the class. *)
Definition UFollowComponent_defaults : UFollowComponent :=
  {| OrientationType := WorldLock;
     MoveToDefaultDistanceLerpTime := 10;
     MinimumDistance := 50;
     MaximumDistance := 100;
     DefaultDistance := 75;
     MaxViewHorizontalDegrees := 30;
     MaxViewVerticalDegrees := 30;
     OrientToCameraDeadzoneDegrees := 60;
     bIgnoreAngleClamp := false;
     bIgnoreDistanceClamp := false;
     bIgnoreCameraPitchAndRoll := false;
     PitchOffset := 0;
     VerticalMaxDistance := 0 |}%Q.



(** ** Construction *)

(** [UTouchPointer::UTouchPointer]: a new pointer touches nothing and its
    touch sphere is created with [InitSphereRadius(TouchRadius)].  The default
    member initialisers of [TouchRadius] and [bIsPinched] are written in
    TouchPointer.h, which is not among the sources; they are parameters. *)
Definition UTouchPointer_new (TouchRadius0 : Q) (bIsPinched0 : bool) : UTouchPointer :=
  {| TouchedTargets := ∅; bIsPinched := bIsPinched0;
     TouchRadius := TouchRadius0; SphereRadius := TouchRadius0 |}.

(** The pinch flags after one operation: only [SetPinched] writes one. *)
Definition pinched_after (o : Op) (q : ptr) (before : bool) : bool :=
  match o with
  | CallSetPinched p Enable => if decide (p = q) then Enable else before
  | _ => before
  end.

(** The sphere component has the radius the pointer records. *)
Definition radius_in_sync (this : UTouchPointer) : Prop :=
  SphereRadius this = TouchRadius this.

(** ** Walking up the attachment chain *)

Section Walks.
Variable sc : Scene.

Lemma ancestor_None d : ancestor sc d None = None.
Proof. induction d as [|d IH]; simpl; auto. Qed.

Lemma ancestor_end_mono d d' comp :
  ancestor sc d comp = None → d ≤ d' → ancestor sc d' comp = None.
Proof.
  revert d' comp. induction d as [|d IH]; intros d' comp Hd Hle; simpl in Hd.
  - subst comp. apply ancestor_None.
  - destruct d' as [|d']; [lia|]. simpl. apply IH; [done | lia].
Qed.

Lemma walk_finds_null P d r : walk_finds sc P None d r → r = None.
Proof. intros (_ & Hr & _). by rewrite ancestor_None in Hr. Qed.

Lemma walk_finds_here P c r : walk_finds sc P (Some c) 0 r → r = Some c ∧ P c.
Proof. intros (_ & Hr & HP). simpl in Hr. subst r. done. Qed.

Lemma walk_finds_up P c d r :
  walk_finds sc P (Some c) (S d) r →
  ¬ P c ∧ walk_finds sc P (GetAttachParent sc c) d r.
Proof.
  intros (Hbelow & Hr & HP). split.
  - apply (Hbelow 0 c); [lia | done].
  - split; [|done]. intros d' a Hlt Ha.
    apply (Hbelow (S d') a); [lia | done].
Qed.

Lemma TryStartTouching_walk d : ∀ fuel comp r this,
  nearest_target sc comp d r → d < fuel →
  TryStartTouching sc fuel comp this = Some (started this r).
Proof.
  induction d as [|d IH]; intros fuel comp r this Hw Hlt;
    (destruct fuel as [|fuel]; [lia|]); destruct comp as [c|]; simpl.
  - apply walk_finds_here in Hw as [-> Ht]. unfold is_target in Ht.
    by rewrite Ht.
  - by rewrite (walk_finds_null _ _ _ Hw).
  - apply walk_finds_up in Hw as [Hc Hw]. unfold is_target in Hc.
    destruct (ImplementsTargetInterface sc c); [done|].
    apply IH; [done | lia].
  - by rewrite (walk_finds_null _ _ _ Hw).
Qed.

Lemma TryStopTouching_walk d : ∀ fuel comp r this,
  nearest_touched sc this comp d r → d < fuel →
  TryStopTouching sc fuel comp this = Some (stopped sc this r).
Proof.
  induction d as [|d IH]; intros fuel comp r this Hw Hlt;
    (destruct fuel as [|fuel]; [lia|]); destruct comp as [c|]; simpl.
  - apply walk_finds_here in Hw as [-> Ht]. by rewrite decide_True.
  - by rewrite (walk_finds_null _ _ _ Hw).
  - apply walk_finds_up in Hw as [Hc Hw]. rewrite decide_False by done.
    simpl. apply IH; [done | lia].
  - by rewrite (walk_finds_null _ _ _ Hw).
Qed.

(** A walk on a chain that ends always arrives somewhere. *)
Lemma walk_finds_total (P : node → Prop) `{∀ c, Decision (P c)} h :
  ∀ comp, ancestor sc h comp = None →
  ∃ d r, d ≤ h ∧ walk_finds sc P comp d r.
Proof.
  induction h as [|h IH]; intros comp Hend; simpl in Hend.
  - subst comp. exists 0, None. split; [lia|]. repeat split. intros d' a Hlt. lia.
  - destruct comp as [c|].
    + destruct (decide (P c)) as [Hc|Hc].
      * exists 0, (Some c). split; [lia|]. repeat split; [|done].
        intros d' a Hlt. lia.
      * destruct (IH _ Hend) as (d & r & Hle & Hbelow & Hr & HP).
        exists (S d), r. split; [lia|]. split; [|done].
        intros [|d'] a Hlt Ha; simpl in Ha; [by simplify_eq|].
        apply (Hbelow d' a); [lia | done].
    + exists 0, None. split; [lia|]. repeat split. intros d' a Hlt. lia.
Qed.

End Walks.

(** ** Bookkeeping lemmas *)

(** Settles a [walk_finds] statement about a concrete scene by running through
    the finitely many steps below the bound. *)
Ltac settle_walk :=
  split;
  [ let d' := fresh "d" in
    let a := fresh "a" in
    let Hlt := fresh "Hlt" in
    let Ha := fresh "Ha" in
    intros d' a Hlt Ha;
    repeat first
      [ lia
      | destruct d' as [|d'];
        [ simpl in Ha; simplify_eq; vm_compute; (congruence || set_solver) | ] ]
  | split; [ reflexivity | first [ exact I | reflexivity | set_solver ] ] ].

Lemma set_TouchedTargets_same this :
  set_TouchedTargets (TouchedTargets this) this = this.
Proof. by destruct this. Qed.

Lemma sent_app (xs ys : list Call) : sent (xs ++ ys) = sent xs ++ sent ys.
Proof. unfold sent. apply map_app. Qed.

Lemma count_of_app n (xs ys : list Call) :
  count_of n (xs ++ ys) = count_of n xs + count_of n ys.
Proof. unfold count_of. by rewrite list.filter_app, length_app. Qed.

Lemma to_target_app t (xs ys : list Call) :
  to_target t (xs ++ ys) = to_target t xs ++ to_target t ys.
Proof. unfold to_target. apply list.filter_app. Qed.

(** ** Overlap-begin *)

(** C7: overlap-begin walks from the component up its attachment chain and
    touches the nearest component, the starting one included, that implements
    the target interface; when the chain ends without such a component it
    answers [false], sends nothing and leaves the pointer as it was. *)
Theorem TryStartTouching_nearest_target sc fuel comp d r this :
  nearest_target sc comp d r → d < fuel →
  match r with
  | Some t =>
    ∃ calls,
      TryStartTouching sc fuel comp this
        = Some (true, set_TouchedTargets ({[t]} ∪ TouchedTargets this) this, calls) ∧
      sent calls
        = (TouchStarted, t) :: (if bIsPinched this then [(PinchStarted, t)] else [])
  | None => TryStartTouching sc fuel comp this = Some (false, this, [])
  end.
Proof.
  intros Hw Hlt. rewrite (TryStartTouching_walk sc d fuel comp r this Hw Hlt).
  destruct r as [t|]; simpl; [|done].
  eexists. split; [done|]. by destruct (bIsPinched this).
Qed.

Lemma TryStartTouching_nearest_target_witness :
  (nearest_target demo_scene (Some 3%positive) 1 (Some 1%positive) ∧ 1 < 5 ∧
   ∃ calls,
     TryStartTouching demo_scene 5 (Some 3%positive) (demo_pointer ∅ true)
       = Some (true,
               set_TouchedTargets ({[1%positive]} ∪ ∅) (demo_pointer ∅ true), calls) ∧
     sent calls = [(TouchStarted, 1%positive); (PinchStarted, 1%positive)]) ∧
  (nearest_target demo_scene (Some 6%positive) 2 None ∧ 2 < 5 ∧
   TryStartTouching demo_scene 5 (Some 6%positive) (demo_pointer ∅ true)
     = Some (false, demo_pointer ∅ true, [])).
Proof.
  assert (H1 : nearest_target demo_scene (Some 3%positive) 1 (Some 1%positive))
    by settle_walk.
  assert (H2 : nearest_target demo_scene (Some 6%positive) 2 None) by settle_walk.
  assert (L1 : 1 < 5) by lia.
  assert (L2 : 2 < 5) by lia.
  split.
  - split; [exact H1 | split; [exact L1|]].
    exact (TryStartTouching_nearest_target demo_scene 5 (Some 3%positive) 1
             (Some 1%positive) (demo_pointer ∅ true) H1 L1).
  - split; [exact H2 | split; [exact L2|]].
    exact (TryStartTouching_nearest_target demo_scene 5 (Some 6%positive) 2
             None (demo_pointer ∅ true) H2 L2).
Defined.

(** C2, as stated, fails: with target 1 already touched, a second overlap-begin
    on its child 3 calls [TouchStarted] on 1 once more. *)
Lemma duplicate_begin_touch_started_again :
  let this := demo_pointer {[1%positive]} false in
  nearest_target demo_scene (Some 3%positive) 1 (Some 1%positive) ∧
  1%positive ∈ TouchedTargets this ∧
  TryStartTouching demo_scene 5 (Some 3%positive) this
    = Some (true, this, [Execute TouchStarted 1%positive this]) ∧
  count_of TouchStarted [Execute TouchStarted 1%positive this] ≠ 0.
Proof.
  simpl. split; [settle_walk|]. split; [set_solver|].
  split; [vm_compute; reflexivity | vm_compute; lia].
Qed.

(** C2, amended: overlap-begin on a component whose nearest target is already
    touched leaves the pointer, and so its touched set, exactly as it was and
    answers [true]; the target is nevertheless sent touch-start again,
    followed by pinch-start when the pointer is pinched. *)
Theorem TryStartTouching_touched_again sc fuel comp d t this :
  nearest_target sc comp d (Some t) → t ∈ TouchedTargets this → d < fuel →
  ∃ calls,
    TryStartTouching sc fuel comp this = Some (true, this, calls) ∧
    sent calls
      = (TouchStarted, t) :: (if bIsPinched this then [(PinchStarted, t)] else []).
Proof.
  intros Hw Hin Hlt.
  rewrite (TryStartTouching_walk sc d fuel comp (Some t) this Hw Hlt). simpl.
  assert (Hsame : {[t]} ∪ TouchedTargets this = TouchedTargets this) by set_solver.
  rewrite Hsame, set_TouchedTargets_same.
  eexists. split; [done|]. by destruct (bIsPinched this).
Qed.

Lemma TryStartTouching_touched_again_witness :
  nearest_target demo_scene (Some 3%positive) 1 (Some 1%positive) ∧
  1%positive ∈ TouchedTargets (demo_pointer {[1%positive]} true) ∧ 1 < 5 ∧
  ∃ calls,
    TryStartTouching demo_scene 5 (Some 3%positive) (demo_pointer {[1%positive]} true)
      = Some (true, demo_pointer {[1%positive]} true, calls) ∧
    sent calls = [(TouchStarted, 1%positive); (PinchStarted, 1%positive)].
Proof.
  assert (H1 : nearest_target demo_scene (Some 3%positive) 1 (Some 1%positive))
    by settle_walk.
  assert (H2 : 1%positive ∈ TouchedTargets (demo_pointer {[1%positive]} true))
    by (simpl; set_solver).
  assert (L : 1 < 5) by lia.
  split; [exact H1 | split; [exact H2 | split; [exact L|]]].
  exact (TryStartTouching_touched_again demo_scene 5 (Some 3%positive) 1 1%positive
           (demo_pointer {[1%positive]} true) H1 H2 L).
Defined.

(** C10, as stated, fails: with target 1 already touched, the handler of the
    touch-start sent by a further overlap-begin finds 1 among the targets the
    pointer touches. *)
Lemma touch_started_sees_earlier_touch :
  let this := demo_pointer {[1%positive]} false in
  ∃ c rest this',
    TryStartTouching demo_scene 5 (Some 3%positive) this = Some (true, this', c :: rest) ∧
    what c = TouchStarted ∧ callee c = 1%positive ∧
    IsTouching (seen c) 1%positive = true.
Proof.
  simpl. eexists _, _, _. split; [vm_compute; reflexivity|].
  repeat split.
Qed.

(** C10, amended: when overlap-begin finds a target, touch-start is the first
    call and is made before the target is inserted, so its handler sees the
    pointer as it was before the call: the membership test answers [true]
    only if the target was touched already, and [false] otherwise; once
    overlap-begin is over the target is touched. *)
Theorem touch_started_precedes_insertion sc fuel comp d t this :
  nearest_target sc comp d (Some t) → d < fuel →
  ∃ c rest this',
    TryStartTouching sc fuel comp this = Some (true, this', c :: rest) ∧
    what c = TouchStarted ∧ callee c = t ∧ seen c = this ∧
    (t ∉ TouchedTargets this → IsTouching (seen c) t = false) ∧
    (t ∈ TouchedTargets this → IsTouching (seen c) t = true) ∧
    IsTouching this' t = true.
Proof.
  intros Hw Hlt. rewrite (TryStartTouching_walk sc d fuel comp (Some t) this Hw Hlt).
  simpl. eexists _, _, _. split; [done|]. simpl.
  repeat split.
  - intros Hn. by apply bool_decide_eq_false.
  - intros Hin. by apply bool_decide_eq_true.
  - apply bool_decide_eq_true. set_solver.
Qed.

Lemma touch_started_precedes_insertion_witness :
  nearest_target demo_scene (Some 3%positive) 1 (Some 1%positive) ∧ 1 < 5 ∧
  ∃ c rest this',
    TryStartTouching demo_scene 5 (Some 3%positive) (demo_pointer {[4%positive]} true)
      = Some (true, this', c :: rest) ∧
    what c = TouchStarted ∧ callee c = 1%positive ∧
    seen c = demo_pointer {[4%positive]} true ∧
    (1%positive ∉ TouchedTargets (demo_pointer {[4%positive]} true) →
     IsTouching (seen c) 1%positive = false) ∧
    (1%positive ∈ TouchedTargets (demo_pointer {[4%positive]} true) →
     IsTouching (seen c) 1%positive = true) ∧
    IsTouching this' 1%positive = true.
Proof.
  assert (H1 : nearest_target demo_scene (Some 3%positive) 1 (Some 1%positive))
    by settle_walk.
  assert (L : 1 < 5) by lia.
  split; [exact H1 | split; [exact L|]].
  exact (touch_started_precedes_insertion demo_scene 5 (Some 3%positive) 1 1%positive
           (demo_pointer {[4%positive]} true) H1 L).
Defined.

(** ** Overlap-end *)

(** C4: overlap-end on a component such that neither it nor any component on
    its attachment chain is touched answers [false], sends no notification
    and leaves the pointer, its touched set included, as it was. *)
Theorem TryStopTouching_untouched_chain sc fuel comp h this :
  (∀ d a, ancestor sc d comp = Some a → a ∉ TouchedTargets this) →
  ancestor sc h comp = None → h < fuel →
  TryStopTouching sc fuel comp this = Some (false, this, []).
Proof.
  intros Hnone Hend Hlt.
  apply (TryStopTouching_walk sc h fuel comp None this); [|done].
  split; [|done]. intros d a _ Ha. by apply (Hnone d a).
Qed.

Lemma TryStopTouching_untouched_chain_witness :
  (∀ d a, ancestor demo_scene d (Some 3%positive) = Some a →
          a ∉ TouchedTargets (demo_pointer {[4%positive]} true)) ∧
  ancestor demo_scene 3 (Some 3%positive) = None ∧ 3 < 5 ∧
  TryStopTouching demo_scene 5 (Some 3%positive) (demo_pointer {[4%positive]} true)
    = Some (false, demo_pointer {[4%positive]} true, []).
Proof.
  assert (H1 : ∀ d a, ancestor demo_scene d (Some 3%positive) = Some a →
                      a ∉ TouchedTargets (demo_pointer {[4%positive]} true)).
  { intros d a Ha. simpl.
    destruct d as [|[|[|d]]]; simpl in Ha; simplify_eq; try set_solver.
    by rewrite ancestor_None in Ha. }
  assert (H2 : ancestor demo_scene 3 (Some 3%positive) = None) by reflexivity.
  assert (L : 3 < 5) by lia.
  split; [exact H1 | split; [exact H2 | split; [exact L|]]].
  exact (TryStopTouching_untouched_chain demo_scene 5 (Some 3%positive) 3
           (demo_pointer {[4%positive]} true) H1 H2 L).
Defined.

(** ** Notifications sent while iterating over the touched targets *)

Lemma to_target_all_for x t (l : list Call) :
  Forall (λ c, callee c = x) l →
  to_target t l = if decide (x = t) then l else [].
Proof.
  unfold to_target. induction 1 as [|c l Hc _ IH].
  - by destruct (decide (x = t)).
  - rewrite filter_cons, IH. subst x.
    destruct (decide (callee c = t)); done.
Qed.

Lemma to_target_flat_map_absent (f : node → list Call) t (l : list node) :
  (∀ x, Forall (λ c, callee c = x) (f x)) → t ∉ l →
  to_target t (flat_map f l) = [].
Proof.
  intros Hf. induction l as [|x l IH]; intros Hnot; [done|].
  simpl. rewrite to_target_app, (to_target_all_for x t) by done.
  rewrite decide_False by set_solver. rewrite IH by set_solver. done.
Qed.

Lemma to_target_flat_map_once (f : node → list Call) t (l : list node) :
  (∀ x, Forall (λ c, callee c = x) (f x)) → NoDup l → t ∈ l →
  to_target t (flat_map f l) = f t.
Proof.
  intros Hf. induction 1 as [|x l Hx Hnd IH]; intros Hin; [by inversion Hin|].
  simpl. rewrite to_target_app, (to_target_all_for x t) by done.
  destruct (decide (x = t)) as [->|Hne].
  - rewrite (to_target_flat_map_absent f t l) by done. by rewrite app_nil_r.
  - simpl. apply IH. set_solver.
Qed.

Lemma flat_map_guard {A B} (g : A → bool) (f : A → list B) (l : list A) :
  flat_map (λ x, if g x then f x else []) l
  = flat_map f (filter (λ x, g x = true) l).
Proof.
  induction l as [|x l IH]; [done|]. simpl. rewrite filter_cons.
  destruct (g x) eqn:Hg.
  - rewrite decide_True by done. simpl. by rewrite IH.
  - rewrite decide_False by congruence. by rewrite IH.
Qed.

Lemma StopTouching_one_callee sc this x :
  Forall (λ c, callee c = x) (StopTouching_one sc this x).
Proof.
  unfold StopTouching_one.
  destruct (Resolves sc x), (bIsPinched this); repeat constructor.
Qed.

Lemma StopAllTouching_to_target sc this t :
  to_target t (StopAllTouching sc this).2
  = if decide (t ∈ TouchedTargets this) then StopTouching_one sc this t else [].
Proof.
  simpl. destruct (decide (t ∈ TouchedTargets this)) as [Hin|Hnot].
  - apply to_target_flat_map_once.
    + apply StopTouching_one_callee.
    + apply NoDup_elements.
    + by apply elem_of_elements.
  - apply to_target_flat_map_absent.
    + apply StopTouching_one_callee.
    + by rewrite elem_of_elements.
Qed.

Lemma EndPlay_calls sc p w :
  (EndPlay sc p w).2 = (StopAllTouching sc (objects w p)).2.
Proof. done. Qed.

(** ** Ending a touch *)

(** C5: a pinched pointer that ends a touch on a live target, whether because
    overlap-end removed the target from the touched set or because the pointer
    ends play, sends that target exactly one pinch-end and then its
    touch-end. *)
Theorem pinch_ended_before_touch_ended sc fuel comp d t p w this :
  bIsPinched this = true → touches_targets_only sc this →
  (nearest_touched sc this comp d (Some t) → d < fuel →
   ∃ this',
     TryStopTouching sc fuel comp this
       = Some (true, this',
               [Execute PinchEnded t this'; Execute TouchEnded t this']) ∧
     TouchedTargets this' = TouchedTargets this ∖ {[t]}) ∧
  (objects w p = this → t ∈ TouchedTargets this → Resolves sc t = true →
   to_target t (EndPlay sc p w).2
     = [Execute PinchEnded t this; Execute TouchEnded t this]).
Proof.
  intros Hpinch Hwf. split.
  - intros Hw Hlt.
    rewrite (TryStopTouching_walk sc d fuel comp (Some t) this Hw Hlt).
    destruct Hw as (_ & _ & Hin). specialize (Hwf t Hin). unfold is_target in Hwf.
    simpl. rewrite Hwf, Hpinch. eexists. split; done.
  - intros Hobj Hin Hlive.
    rewrite EndPlay_calls, Hobj, StopAllTouching_to_target.
    rewrite decide_True by done. unfold StopTouching_one.
    by rewrite Hlive, Hpinch.
Qed.

Lemma pinch_ended_before_touch_ended_witness :
  let this := demo_pointer {[1%positive; 4%positive]} true in
  let w := {| Pointers := [7%positive]; objects := λ _, this |} in
  bIsPinched this = true ∧ touches_targets_only demo_scene this ∧
  (nearest_touched demo_scene this (Some 3%positive) 1 (Some 1%positive) ∧ 1 < 5 ∧
   ∃ this',
     TryStopTouching demo_scene 5 (Some 3%positive) this
       = Some (true, this',
               [Execute PinchEnded 1%positive this';
                Execute TouchEnded 1%positive this']) ∧
     TouchedTargets this' = TouchedTargets this ∖ {[1%positive]}) ∧
  (objects w 7%positive = this ∧ 1%positive ∈ TouchedTargets this ∧
   Resolves demo_scene 1%positive = true ∧
   to_target 1%positive (EndPlay demo_scene 7%positive w).2
     = [Execute PinchEnded 1%positive this; Execute TouchEnded 1%positive this]).
Proof.
  intros this w.
  assert (Hp : bIsPinched this = true) by reflexivity.
  assert (Hwf : touches_targets_only demo_scene this).
  { intros c Hc. unfold is_target.
    assert (c = 1%positive ∨ c = 4%positive) as [-> | ->] by set_solver; reflexivity. }
  assert (H1 : nearest_touched demo_scene this (Some 3%positive) 1 (Some 1%positive)).
  { split; [|split; [reflexivity | simpl; set_solver]].
    intros d' a Hlt Ha. assert (d' = 0) as -> by lia.
    simpl in Ha. simplify_eq. simpl. set_solver. }
  assert (L : 1 < 5) by lia.
  assert (Ho : objects w 7%positive = this) by reflexivity.
  assert (Hin : 1%positive ∈ TouchedTargets this) by (simpl; set_solver).
  assert (Hl : Resolves demo_scene 1%positive = true) by reflexivity.
  pose proof (pinch_ended_before_touch_ended demo_scene 5 (Some 3%positive) 1
                1%positive 7%positive w this Hp Hwf) as [T1 T2].
  split; [exact Hp | split; [exact Hwf | split]].
  - split; [exact H1 | split; [exact L | exact (T1 H1 L)]].
  - split; [exact Ho | split; [exact Hin | split; [exact Hl | exact (T2 Ho Hin Hl)]]].
Defined.

(** C8: when a pointer ends play, every touched target whose weak pointer
    still resolves is sent its end notifications (pinch-end first when the
    pointer is pinched, then touch-end), nothing at all is sent to a target
    that no longer resolves or that was not touched, and afterwards the
    touched set of the pointer is empty and the pointer has left the
    registry.  [EndPlay] is a total function: there is no failing case. *)
Theorem EndPlay_ends_live_touches sc p w :
  let this := objects w p in
  let w' := (EndPlay sc p w).1 in
  let calls := (EndPlay sc p w).2 in
  (∀ t, t ∈ TouchedTargets this → Resolves sc t = true →
     to_target t calls
       = (if bIsPinched this then [Execute PinchEnded t this] else [])
         ++ [Execute TouchEnded t this]) ∧
  (∀ t, Resolves sc t = false → to_target t calls = []) ∧
  (∀ t, t ∉ TouchedTargets this → to_target t calls = []) ∧
  TouchedTargets (objects w' p) = ∅ ∧
  p ∉ GetAllPointers w'.
Proof.
  intros this w' calls. subst calls w'. rewrite EndPlay_calls.
  fold this. repeat split.
  - intros t Hin Hlive. rewrite StopAllTouching_to_target.
    rewrite decide_True by done. unfold StopTouching_one. by rewrite Hlive.
  - intros t Hdead. rewrite StopAllTouching_to_target.
    unfold StopTouching_one. rewrite Hdead. by destruct (decide _).
  - intros t Hnot. rewrite StopAllTouching_to_target.
    by rewrite decide_False.
  - unfold EndPlay. simpl. by rewrite fn_lookup_insert.
  - unfold EndPlay, GetAllPointers, TArray_Remove. simpl.
    rewrite list_elem_of_filter. tauto.
Qed.

Lemma EndPlay_ends_live_touches_witness :
  let this := demo_pointer {[1%positive; 5%positive]} true in
  let w := {| Pointers := [7%positive; 8%positive]; objects := λ _, this |} in
  let w' := (EndPlay demo_scene 7%positive w).1 in
  let calls := (EndPlay demo_scene 7%positive w).2 in
  to_target 1%positive calls
    = [Execute PinchEnded 1%positive this; Execute TouchEnded 1%positive this] ∧
  to_target 5%positive calls = [] ∧
  to_target 4%positive calls = [] ∧
  TouchedTargets (objects w' 7%positive) = ∅ ∧
  7%positive ∉ GetAllPointers w'.
Proof.
  intros this w w' calls.
  destruct (EndPlay_ends_live_touches demo_scene 7%positive w)
    as (Hlive & Hdead & Hnot & Hempty & Hgone).
  split; [|split; [|split; [|split]]].
  - apply (Hlive 1%positive); [simpl; set_solver | reflexivity].
  - apply (Hdead 5%positive). reflexivity.
  - apply (Hnot 4%positive). simpl. set_solver.
  - exact Hempty.
  - exact Hgone.
Defined.

(** ** Pinching *)

Lemma SetPinched_same sc b this :
  bIsPinched this = b → SetPinched sc b this = (this, []).
Proof. intros <-. unfold SetPinched. by destruct (bIsPinched this). Qed.

(** Releasing the pinch sends one pinch-end to every live touched target. *)
Lemma SetPinched_disable sc this :
  bIsPinched this = true →
  SetPinched sc false this
  = (set_bIsPinched false this,
     flat_map (λ t, [Execute PinchEnded t this]) (live_targets sc this)).
Proof.
  intros Hp. unfold SetPinched, live_targets. rewrite Hp. simpl. f_equal.
  rewrite <- (flat_map_guard (Resolves sc)). done.
Qed.

(** Starting to pinch sends every live touched target a pinch-start directly
    followed by a pinch-end. *)
Lemma SetPinched_enable sc this :
  bIsPinched this = false →
  SetPinched sc true this
  = (set_bIsPinched true this,
     flat_map (λ t, [Execute PinchStarted t this; Execute PinchEnded t this])
              (live_targets sc this)).
Proof.
  intros Hp. unfold SetPinched, live_targets. rewrite Hp. simpl. f_equal.
  rewrite <- (flat_map_guard (Resolves sc)). done.
Qed.

Lemma count_of_pairs this n (l : list node) :
  count_of n (flat_map (λ t, [Execute PinchStarted t this; Execute PinchEnded t this]) l)
  = match n with PinchStarted | PinchEnded => length l | _ => 0 end.
Proof.
  induction l as [|x l IH]; [by destruct n|].
  change (flat_map ?f (x :: l)) with (f x ++ flat_map f l).
  rewrite count_of_app, IH. by destruct n.
Qed.

(** With [N] live touched targets, starting to pinch makes [2 * N] calls:
    [N] pinch-starts and [N] pinch-ends. *)
Lemma SetPinched_enable_counts sc this :
  bIsPinched this = false →
  let calls := (SetPinched sc true this).2 in
  let N := length (live_targets sc this) in
  count_of PinchStarted calls = N ∧ count_of PinchEnded calls = N ∧
  length calls = 2 * N.
Proof.
  intros Hp. rewrite SetPinched_enable by done. simpl.
  rewrite !count_of_pairs. repeat split.
  induction (live_targets sc this) as [|x l IH]; simpl; lia.
Qed.

(** C1: the pinch transition is meant to send one pinch event per touched
    target.  With the single live target 1 touched and the pointer not
    pinched, [SetPinched(true)] sends pinch-start and then pinch-end to it:
    two calls instead of one, of both kinds. *)
Theorem SetPinched_enable_sends_start_and_end :
  let this := demo_pointer {[1%positive]} false in
  live_targets demo_scene this = [1%positive] ∧
  SetPinched demo_scene true this
  = (demo_pointer {[1%positive]} true,
     [Execute PinchStarted 1%positive this; Execute PinchEnded 1%positive this]).
Proof. split; vm_compute; reflexivity. Qed.

(** ** The touched set holds targets only *)

Lemma touches_targets_only_subset sc s this :
  touches_targets_only sc this → s ⊆ TouchedTargets this →
  touches_targets_only sc (set_TouchedTargets s this).
Proof. intros Hwf Hsub c Hc. apply Hwf. simpl in Hc. set_solver. Qed.

Lemma TryStartTouching_targets_only sc fuel : ∀ comp this b this' calls,
  touches_targets_only sc this →
  TryStartTouching sc fuel comp this = Some (b, this', calls) →
  touches_targets_only sc this'.
Proof.
  induction fuel as [|fuel IH]; intros comp this b this' calls Hwf Hrun; [done|].
  simpl in Hrun. destruct comp as [c|]; [|by simplify_eq].
  destruct (ImplementsTargetInterface sc c) eqn:Hc; [|by eapply IH].
  simplify_eq. intros x Hx. simpl in Hx. unfold TSet_Add in Hx.
  apply elem_of_union in Hx as [Hx|Hx]; [|by apply Hwf].
  apply elem_of_singleton in Hx as ->. done.
Qed.

Lemma TryStopTouching_targets_only sc fuel : ∀ comp this b this' calls,
  touches_targets_only sc this →
  TryStopTouching sc fuel comp this = Some (b, this', calls) →
  touches_targets_only sc this'.
Proof.
  induction fuel as [|fuel IH]; intros comp this b this' calls Hwf Hrun; [done|].
  simpl in Hrun. destruct comp as [c|]; [|by simplify_eq].
  destruct (decide (c ∈ TouchedTargets this)); simpl in Hrun; [|by eapply IH].
  simplify_eq. apply touches_targets_only_subset; [done | set_solver].
Qed.

(** ** Begin and end on one component *)

Lemma overlaps_app sc fuel comp es1 : ∀ es2 this,
  overlaps sc fuel comp (es1 ++ es2) this
  = match overlaps sc fuel comp es1 this with
    | Some (this1, calls1) =>
      match overlaps sc fuel comp es2 this1 with
      | Some (this2, calls2) => Some (this2, calls1 ++ calls2)
      | None => None
      end
    | None => None
    end.
Proof.
  induction es1 as [|e es1 IH]; intros es2 this; simpl.
  - by destruct (overlaps sc fuel comp es2 this) as [[? ?]|].
  - destruct (OnPointerOverlap sc fuel comp e this) as [[this1 calls]|]; [|done].
    rewrite IH.
    destruct (overlaps sc fuel comp es1 this1) as [[this2 calls2]|]; [|done].
    destruct (overlaps sc fuel comp es2 this2) as [[this3 calls3]|]; [|done].
    by rewrite app_assoc.
Qed.

(** On a pointer that touches targets only, the component that overlap-end
    removes after an overlap-begin is the target that overlap-begin found. *)
Lemma nearest_touched_after_begin sc comp d t this :
  touches_targets_only sc this → nearest_target sc comp d (Some t) →
  nearest_touched sc (set_TouchedTargets ({[t]} ∪ TouchedTargets this) this)
    comp d (Some t).
Proof.
  intros Hwf (Hbelow & Hr & Ht). split; [|split; [done | simpl; set_solver]].
  intros d' a Hlt Ha Hin. apply (Hbelow d' a Hlt Ha).
  simpl in Hin. apply elem_of_union in Hin as [Hin|Hin]; [|by apply Hwf].
  by apply elem_of_singleton in Hin as ->.
Qed.

Lemma nearest_touched_no_target sc comp d this :
  touches_targets_only sc this → nearest_target sc comp d None →
  nearest_touched sc this comp d None.
Proof.
  intros Hwf (Hbelow & Hr & _). split; [|done].
  intros d' a Hlt Ha Hin. apply (Hbelow d' a Hlt Ha). by apply Hwf.
Qed.

Lemma overlaps_pair sc fuel comp d r this :
  touches_targets_only sc this → nearest_target sc comp d r → d < fuel →
  ∃ calls,
    overlaps sc fuel comp [Begin; End_] this
      = Some (set_TouchedTargets (without_target r (TouchedTargets this)) this, calls) ∧
    count_of TouchStarted calls = count_of TouchEnded calls.
Proof.
  intros Hwf Hw Hlt. simpl. unfold OnPointerBeginOverlap, OnPointerEndOverlap.
  rewrite (TryStartTouching_walk sc d fuel comp r this Hw Hlt).
  destruct r as [t|]; simpl.
  - rewrite (TryStopTouching_walk sc d fuel comp (Some t) _
               (nearest_touched_after_begin sc comp d t this Hwf Hw) Hlt).
    simpl. destruct Hw as (_ & _ & Ht). unfold is_target in Ht. rewrite Ht.
    assert (Hset : ({[t]} ∪ TouchedTargets this) ∖ {[t]} = TouchedTargets this ∖ {[t]})
      by set_solver.
    unfold set_TouchedTargets at 1 2. simpl. rewrite Hset.
    eexists. split; [done|]. by destruct (bIsPinched this).
  - rewrite (TryStopTouching_walk sc d fuel comp None this
               (nearest_touched_no_target sc comp d this Hwf Hw) Hlt).
    simpl. rewrite set_TouchedTargets_same. by eexists.
Qed.

Lemma overlaps_pairs sc fuel comp d r k : ∀ this,
  touches_targets_only sc this → nearest_target sc comp d r → d < fuel →
  ∃ calls,
    overlaps sc fuel comp (begin_end_pairs k) this
      = Some (set_TouchedTargets
                (match k with
                 | O => TouchedTargets this
                 | S _ => without_target r (TouchedTargets this)
                 end) this, calls) ∧
    count_of TouchStarted calls = count_of TouchEnded calls.
Proof.
  induction k as [|k IH]; intros this Hwf Hw Hlt.
  - exists []. simpl. by rewrite set_TouchedTargets_same.
  - change (begin_end_pairs (S k)) with ([Begin; End_] ++ begin_end_pairs k).
    rewrite overlaps_app.
    destruct (overlaps_pair sc fuel comp d r this Hwf Hw Hlt) as (calls1 & -> & Hc1).
    set (this1 := set_TouchedTargets (without_target r (TouchedTargets this)) this).
    assert (Hwf1 : touches_targets_only sc this1).
    { apply touches_targets_only_subset; [done|]. destruct r; simpl; set_solver. }
    destruct (IH this1 Hwf1 Hw Hlt) as (calls2 & -> & Hc2).
    exists (calls1 ++ calls2). rewrite !count_of_app, Hc1, Hc2. split; [|done].
    do 2 f_equal. subst this1. unfold set_TouchedTargets. simpl. f_equal.
    destruct k; [done|]. destruct r; simpl; [set_solver | done].
Qed.

(** C3, as stated, fails: with target 1 touched before the sequence, one
    overlap-begin and overlap-end on its child 3 leave the touched set empty,
    one element short of where it started. *)
Lemma begin_end_pair_drops_earlier_touch :
  let this := demo_pointer {[1%positive]} false in
  size (TouchedTargets this) = 1 ∧
  overlaps demo_scene 5 (Some 3%positive) (begin_end_pairs 1) this
    = Some (demo_pointer ∅ false,
            [Execute TouchStarted 1%positive this;
             Execute TouchEnded 1%positive (demo_pointer ∅ false)]) ∧
  size (TouchedTargets (demo_pointer ∅ false)) = 0.
Proof. simpl. repeat split; vm_compute; reflexivity. Qed.

(** A doubled overlap-begin is not made up for by a doubled overlap-end: the
    second overlap-end finds nothing to remove. *)
Example begin_begin_end_end :
  (overlaps demo_scene 5 (Some 3%positive) [Begin; Begin; End_; End_]
     (demo_pointer ∅ false))
  ≫= (λ r, Some (size (TouchedTargets r.1), sent r.2))
  = Some (0, [(TouchStarted, 1%positive); (TouchStarted, 1%positive);
              (TouchEnded, 1%positive)]).
Proof. vm_compute. reflexivity. Qed.

(** C3, amended: for a pointer that touches targets only (as every pointer
    does that starts with no touched target) and any number of overlap-begin
    / overlap-end pairs on one component, the touch-starts sent are as many
    as the touch-ends sent; and when the nearest target of the component was
    not touched before the sequence (or there is none), the pointer, with its
    touched set and so the size of that set, is afterwards as it was before. *)
Theorem begin_end_pairs_balanced sc fuel comp d r k this :
  touches_targets_only sc this → nearest_target sc comp d r → d < fuel →
  ∃ this' calls,
    overlaps sc fuel comp (begin_end_pairs k) this = Some (this', calls) ∧
    count_of TouchStarted calls = count_of TouchEnded calls ∧
    ((∀ t, r = Some t → t ∉ TouchedTargets this) →
     this' = this ∧ size (TouchedTargets this') = size (TouchedTargets this)).
Proof.
  intros Hwf Hw Hlt.
  destruct (overlaps_pairs sc fuel comp d r k this Hwf Hw Hlt) as (calls & Hrun & Hc).
  eexists _, calls. split; [exact Hrun|]. split; [done|].
  intros Hfresh.
  assert (Hsame : without_target r (TouchedTargets this) = TouchedTargets this).
  { destruct r as [t|]; [|done]. simpl. specialize (Hfresh t eq_refl). set_solver. }
  assert (Hthis : set_TouchedTargets
                    (match k with
                     | O => TouchedTargets this
                     | S _ => without_target r (TouchedTargets this)
                     end) this = this).
  { destruct k; rewrite ?Hsame; apply set_TouchedTargets_same. }
  by rewrite Hthis.
Qed.

Lemma begin_end_pairs_balanced_witness :
  let this := demo_pointer {[4%positive]} true in
  touches_targets_only demo_scene this ∧
  nearest_target demo_scene (Some 3%positive) 1 (Some 1%positive) ∧ 1 < 5 ∧
  ∃ this' calls,
    overlaps demo_scene 5 (Some 3%positive) (begin_end_pairs 3) this
      = Some (this', calls) ∧
    count_of TouchStarted calls = count_of TouchEnded calls ∧
    ((∀ t, Some 1%positive = Some t → t ∉ TouchedTargets this) →
     this' = this ∧ size (TouchedTargets this') = size (TouchedTargets this)).
Proof.
  intros this.
  assert (Hwf : touches_targets_only demo_scene this).
  { intros c Hc. unfold is_target.
    assert (c = 4%positive) as -> by set_solver. reflexivity. }
  assert (H1 : nearest_target demo_scene (Some 3%positive) 1 (Some 1%positive))
    by settle_walk.
  assert (L : 1 < 5) by lia.
  split; [exact Hwf | split; [exact H1 | split; [exact L|]]].
  exact (begin_end_pairs_balanced demo_scene 5 (Some 3%positive) 1 (Some 1%positive)
           3 this Hwf H1 L).
Defined.

(** ** The walks return *)

Lemma chains_end_within_ancestor sc H comp :
  chains_end_within sc H → ancestor sc H comp = None.
Proof. intros Hend. destruct comp as [c|]; [apply Hend | apply ancestor_None]. Qed.

Lemma TryStartTouching_total sc H fuel comp this :
  chains_end_within sc H → H < fuel →
  ∃ out, TryStartTouching sc fuel comp this = Some out.
Proof.
  intros Hend Hlt.
  destruct (walk_finds_total sc (is_target sc) H comp
              (chains_end_within_ancestor sc H comp Hend)) as (d & r & Hle & Hw).
  eexists. apply (TryStartTouching_walk sc d); [exact Hw | lia].
Qed.

Lemma TryStopTouching_total sc H fuel comp this :
  chains_end_within sc H → H < fuel →
  ∃ out, TryStopTouching sc fuel comp this = Some out.
Proof.
  intros Hend Hlt.
  destruct (walk_finds_total sc (λ c, c ∈ TouchedTargets this) H comp
              (chains_end_within_ancestor sc H comp Hend)) as (d & r & Hle & Hw).
  eexists. apply (TryStopTouching_walk sc d); [exact Hw | lia].
Qed.

(** ** The registry *)

Lemma step_registry sc H fuel o w :
  chains_end_within sc H → H < fuel →
  ∃ w' calls,
    step sc fuel o w = Some (w', calls) ∧
    Pointers w' = registry_after o (Pointers w).
Proof.
  intros Hend Hlt. destruct o as [p|p|p c|p c|p b|p|p r| |p c|p c|p]; simpl;
    unfold OnPointerBeginOverlap, OnPointerEndOverlap;
    try (destruct (TryStartTouching_total sc H fuel c (objects w p) Hend Hlt)
           as ([[b this'] calls] & ->));
    try (destruct (TryStopTouching_total sc H fuel c (objects w p) Hend Hlt)
           as ([[b' this''] calls'] & ->));
    try (destruct (SetPinched sc b (objects w p)) as [this' calls]);
    by eexists _, _.
Qed.

Lemma activated_cons p o ops :
  activated_not_deactivated p (o :: ops) ↔
  (o = CallBeginPlay p ∧ CallEndPlay p ∉ ops) ∨ activated_not_deactivated p ops.
Proof.
  split.
  - intros (before & after & Heq & Hnot). destruct before as [|o' before].
    + left. simpl in Heq. by simplify_eq.
    + right. simpl in Heq. simplify_eq. by exists before, after.
  - intros [[-> Hnot] | (before & after & -> & Hnot)].
    + by exists [], ops.
    + by exists (o :: before), after.
Qed.

Lemma registry_after_elem p o (a : list ptr) :
  p ∈ registry_after o a ↔ o = CallBeginPlay p ∨ (p ∈ a ∧ o ≠ CallEndPlay p).
Proof.
  destruct o as [q|q|q c|q c|q b|q|q r| |q c|q c|q]; simpl;
    rewrite ?elem_of_app, ?list_elem_of_filter, ?list_elem_of_singleton;
    try (split; [intros Hin; right; split; [done | congruence] | intros [?|[? _]]; done]).
  - split.
    + intros [Hin | ->]; [right; split; [done | congruence] | by left].
    + intros [Heq | [Hin _]]; [right; congruence | by left].
  - split.
    + intros [Hne Hin]. right. split; [done | congruence].
    + intros [Heq | [Hin Hne]]; [done|]. split; [congruence | done].
Qed.

Lemma run_registry sc H fuel ops : ∀ w,
  chains_end_within sc H → H < fuel →
  ∃ w' calls,
    run sc fuel ops w = Some (w', calls) ∧
    ∀ p, p ∈ Pointers w' ↔
         activated_not_deactivated p ops ∨ (p ∈ Pointers w ∧ CallEndPlay p ∉ ops).
Proof.
  induction ops as [|o ops IH]; intros w Hend Hlt.
  - exists w, []. split; [done|]. intros p. split.
    + intros Hin. right. split; [done | apply not_elem_of_nil].
    + intros [(before & after & Heq & _) | [Hin _]]; [|done].
      by destruct before.
  - simpl. destruct (step_registry sc H fuel o w Hend Hlt) as (w1 & calls1 & -> & Hreg).
    destruct (IH w1 Hend Hlt) as (w' & calls' & -> & Hin).
    exists w', (calls1 ++ calls'). split; [done|]. intros p.
    rewrite Hin, Hreg, registry_after_elem, activated_cons, not_elem_of_cons.
    split.
    + intros [Hact | [[-> | [Hp Hne]] Hnot]]; [by left; right | by left; left |].
      right. split; [done | split; [congruence | done]].
    + intros [[[-> Hnot] | Hact] | [Hp [Hne Hnot]]]; [by right; split; [left|] | by left |].
      right. split; [right; split; [done | congruence] | done].
Qed.

(** C6: only [BeginPlay], which appends the pointer, and [EndPlay], which
    removes it, change the registry; every other operation leaves it as it
    is.  Hence, after any sequence of operations from program start,
    [GetAllPointers] holds exactly the pointers that have begun play and
    have not ended play since. *)
Theorem registry_tracks_life_cycle sc H fuel ops objs :
  chains_end_within sc H → H < fuel →
  (∀ o w, ∃ w' calls,
     step sc fuel o w = Some (w', calls) ∧
     Pointers w' = match o with
                   | CallBeginPlay p => Pointers w ++ [p]
                   | CallEndPlay p => filter (λ q, q ≠ p) (Pointers w)
                   | _ => Pointers w
                   end) ∧
  ∃ w' calls,
    run sc fuel ops (program_start objs) = Some (w', calls) ∧
    ∀ p, p ∈ GetAllPointers w' ↔ activated_not_deactivated p ops.
Proof.
  intros Hend Hlt. split.
  - intros o w. apply (step_registry sc H fuel o w Hend Hlt).
  - destruct (run_registry sc H fuel ops (program_start objs) Hend Hlt)
      as (w' & calls & Hrun & Hin).
    exists w', calls. split; [done|]. intros p. unfold GetAllPointers.
    rewrite Hin. simpl. split; [|by left].
    intros [Hact | [Hp _]]; [done|]. by apply elem_of_nil in Hp.
Qed.

Lemma demo_scene_chains : chains_end_within demo_scene 3.
Proof.
  intros c. destruct c as [[[c|c|]|[c|c|]|]|[[c|c|]|[c|c|]|]|]; reflexivity.
Qed.

Lemma registry_tracks_life_cycle_witness :
  let ops := [CallBeginPlay 7%positive;
              CallOnPointerBeginOverlap 7%positive (Some 3%positive);
              CallBeginPlay 8%positive;
              CallSetPinched 7%positive true;
              CallEndPlay 7%positive] in
  let objs := λ _ : ptr, demo_pointer ∅ false in
  chains_end_within demo_scene 3 ∧ 3 < 5 ∧
  (∀ o w, ∃ w' calls,
     step demo_scene 5 o w = Some (w', calls) ∧
     Pointers w' = match o with
                   | CallBeginPlay p => Pointers w ++ [p]
                   | CallEndPlay p => filter (λ q, q ≠ p) (Pointers w)
                   | _ => Pointers w
                   end) ∧
  ∃ w' calls,
    run demo_scene 5 ops (program_start objs) = Some (w', calls) ∧
    ∀ p, p ∈ GetAllPointers w' ↔ activated_not_deactivated p ops.
Proof.
  intros ops objs.
  assert (L : 3 < 5) by lia.
  split; [exact demo_scene_chains | split; [exact L|]].
  exact (registry_tracks_life_cycle demo_scene 3 5 ops objs demo_scene_chains L).
Defined.

(** The registry of the run above holds pointer 8 alone; target 1 is sent a
    pinch-end by [SetPinched] and another one by [EndPlay]. *)
Example registry_after_demo_run :
  (run demo_scene 5
     [CallBeginPlay 7%positive;
      CallOnPointerBeginOverlap 7%positive (Some 3%positive);
      CallBeginPlay 8%positive;
      CallSetPinched 7%positive true;
      CallEndPlay 7%positive]
     (program_start (λ _, demo_pointer ∅ false)))
  ≫= (λ r, Some (GetAllPointers r.1, map (λ c, (c.1, what c.2, callee c.2)) r.2))
  = Some ([8%positive],
          [(7%positive, TouchStarted, 1%positive);
           (7%positive, PinchStarted, 1%positive);
           (7%positive, PinchEnded, 1%positive);
           (7%positive, PinchEnded, 1%positive);
           (7%positive, TouchEnded, 1%positive)]).
Proof. vm_compute. reflexivity. Qed.

(** ** Reachable pointers touch targets only *)

Lemma step_targets_only sc fuel o w w' calls :
  (∀ p, touches_targets_only sc (objects w p)) →
  step sc fuel o w = Some (w', calls) →
  ∀ p, touches_targets_only sc (objects w' p).
Proof.
  intros Hwf Hstep q.
  assert (Hset : ∀ p this, touches_targets_only sc this →
                 touches_targets_only sc (objects (set_object p this w) q)).
  { intros p this Hthis. unfold set_object. simpl.
    destruct (decide (p = q)) as [->|Hne].
    - by rewrite fn_lookup_insert.
    - by rewrite fn_lookup_insert_ne. }
  destruct o as [p|p|p c|p c|p b|p|p r| |p c|p c|p]; simpl in Hstep;
    unfold OnPointerBeginOverlap, OnPointerEndOverlap in Hstep.
  - simplify_eq. apply Hwf.
  - simplify_eq. simpl. destruct (decide (p = q)) as [->|Hne].
    + rewrite fn_lookup_insert. intros x Hx. simpl in Hx. set_solver.
    + rewrite fn_lookup_insert_ne by done. apply Hwf.
  - destruct (TryStartTouching sc fuel c (objects w p)) as [[[b this'] cs]|] eqn:Hrun;
      [|done].
    simpl in Hstep. simplify_eq. apply Hset. by eapply TryStartTouching_targets_only.
  - destruct (TryStopTouching sc fuel c (objects w p)) as [[[b this'] cs]|] eqn:Hrun;
      [|done].
    simpl in Hstep. simplify_eq. apply Hset. by eapply TryStopTouching_targets_only.
  - unfold SetPinched in Hstep.
    destruct (negb (eqb (bIsPinched (objects w p)) b)); simplify_eq; apply Hset;
      [intros x Hx; by apply (Hwf p) | apply Hwf].
  - simplify_eq. apply Hwf.
  - simplify_eq. apply Hset. intros x Hx. by apply (Hwf p).
  - simplify_eq. apply Hwf.
  - destruct (TryStartTouching sc fuel c (objects w p)) as [[[b this'] cs]|] eqn:Hrun;
      [|done].
    simplify_eq. apply Hset. by eapply TryStartTouching_targets_only.
  - destruct (TryStopTouching sc fuel c (objects w p)) as [[[b this'] cs]|] eqn:Hrun;
      [|done].
    simplify_eq. apply Hset. by eapply TryStopTouching_targets_only.
  - simplify_eq. apply Hset. intros x Hx. simpl in Hx. set_solver.
Qed.

Lemma run_targets_only sc fuel ops : ∀ w w' calls,
  (∀ p, touches_targets_only sc (objects w p)) →
  run sc fuel ops w = Some (w', calls) →
  ∀ p, touches_targets_only sc (objects w' p).
Proof.
  induction ops as [|o ops IH]; intros w w' calls Hwf Hrun; simpl in Hrun.
  - by simplify_eq.
  - destruct (step sc fuel o w) as [[w1 calls1]|] eqn:Hstep; [|done].
    destruct (run sc fuel ops w1) as [[w2 calls2]|] eqn:Hrest; [|done].
    simplify_eq. eapply IH; [|exact Hrest].
    by eapply step_targets_only.
Qed.

(** ** The distance clamp of the follow component *)

Lemma defaults_bounds_ordered :
  (MinimumDistance UFollowComponent_defaults
   <= MaximumDistance UFollowComponent_defaults)%Q.
Proof. vm_compute. discriminate. Qed.




(** * Further properties of the touch pointer *)

(** ** What one call can do to a pointer *)

Lemma TryStartTouching_shape sc fuel : ∀ comp this b this' calls,
  TryStartTouching sc fuel comp this = Some (b, this', calls) →
  (b = false ∧ this' = this ∧ calls = []) ∨
  (∃ t, b = true ∧ is_target sc t ∧
        this' = set_TouchedTargets ({[t]} ∪ TouchedTargets this) this ∧
        Forall (λ c, callee c = t) calls).
Proof.
  induction fuel as [|fuel IH]; intros comp this b this' calls Hrun; [done|].
  simpl in Hrun. destruct comp as [c|]; [|left; by simplify_eq].
  destruct (ImplementsTargetInterface sc c) eqn:Hc; [|by eapply IH].
  right. exists c. simplify_eq. repeat split; [done|].
  destruct (bIsPinched this); repeat constructor.
Qed.

Lemma TryStopTouching_shape sc fuel : ∀ comp this b this' calls,
  TryStopTouching sc fuel comp this = Some (b, this', calls) →
  (b = false ∧ this' = this ∧ calls = []) ∨
  (∃ t, b = true ∧ t ∈ TouchedTargets this ∧
        this' = set_TouchedTargets (TouchedTargets this ∖ {[t]}) this ∧
        Forall (λ c, callee c = t ∧ is_target sc t) calls).
Proof.
  induction fuel as [|fuel IH]; intros comp this b this' calls Hrun; [done|].
  simpl in Hrun. destruct comp as [c|]; [|left; by simplify_eq].
  destruct (decide (c ∈ TouchedTargets this)) as [Hin|Hnot]; simpl in Hrun;
    [|by eapply IH].
  right. exists c. simplify_eq. repeat split; [done|].
  unfold is_target. destruct (ImplementsTargetInterface sc c); [|constructor].
  destruct (bIsPinched this); repeat constructor.
Qed.

Lemma SetPinched_one_callee sc b this x :
  Forall (λ c, callee c = x) (SetPinched_one sc b this x).
Proof.
  unfold SetPinched_one. destruct (Resolves sc x), b; repeat constructor.
Qed.

Lemma SetPinched_shape sc b this :
  (SetPinched sc b this).1 = set_bIsPinched b this.
Proof.
  unfold SetPinched. destruct (bIsPinched this) eqn:Hp, b; simpl; try done;
    destruct this; simpl in *; by subst.
Qed.

Lemma flat_map_callee_elem (f : node → list Call) (l : list node) :
  (∀ x, Forall (λ c, callee c = x) (f x)) →
  Forall (λ c, callee c ∈ l) (flat_map f l).
Proof.
  intros Hf. induction l as [|x l IH]; simpl; [constructor|].
  apply Forall_app. split.
  - eapply list.Forall_impl; [apply Hf|]. intros c ->. simpl. set_solver.
  - eapply list.Forall_impl; [apply IH|]. intros c Hc. simpl in Hc. set_solver.
Qed.

Lemma StopAllTouching_callees sc this :
  Forall (λ c, callee c ∈ TouchedTargets this) (StopAllTouching sc this).2.
Proof.
  simpl. apply (list.Forall_impl (λ c, callee c ∈ elements (TouchedTargets this))).
  - apply (flat_map_callee_elem (StopTouching_one sc this)).
    apply StopTouching_one_callee.
  - intros c Hc. by apply elem_of_elements.
Qed.

Lemma SetPinched_callees sc b this :
  Forall (λ c, callee c ∈ TouchedTargets this) (SetPinched sc b this).2.
Proof.
  unfold SetPinched. destruct (negb _); simpl; [|constructor].
  apply (list.Forall_impl (λ c, callee c ∈ elements (TouchedTargets this))).
  - apply (flat_map_callee_elem (SetPinched_one sc b this)).
    apply SetPinched_one_callee.
  - intros c Hc. by apply elem_of_elements.
Qed.

Lemma step_returns sc H fuel o w :
  chains_end_within sc H → H < fuel → ∃ r, step sc fuel o w = Some r.
Proof.
  intros Hend Hlt.
  destruct (step_registry sc H fuel o w Hend Hlt) as (w' & calls & -> & _).
  by eexists.
Qed.

Lemma run_returns sc H fuel ops w :
  chains_end_within sc H → H < fuel → ∃ r, run sc fuel ops w = Some r.
Proof.
  intros Hend Hlt.
  destruct (run_registry sc H fuel ops w Hend Hlt) as (w' & calls & -> & _).
  by eexists.
Qed.

(** Case analysis on one operation that returned: the operation is split into
    its eleven cases and the answers of the calls it makes are named. *)
Ltac step_cases Hstep p c :=
  match type of Hstep with
  | step ?sc ?fuel ?o ?w = Some _ =>
    destruct o as [p|p|p c|p c|p ?|p|p ?| |p c|p c|p]; simpl in Hstep;
    unfold OnPointerBeginOverlap, OnPointerEndOverlap in Hstep;
    repeat match type of Hstep with
    | context [TryStartTouching ?a ?b ?x ?y] =>
      let E := fresh "Hrun" in
      destruct (TryStartTouching a b x y) as [[[? ?] ?]|] eqn:E;
      simpl in Hstep; [|done]
    | context [TryStopTouching ?a ?b ?x ?y] =>
      let E := fresh "Hrun" in
      destruct (TryStopTouching a b x y) as [[[? ?] ?]|] eqn:E;
      simpl in Hstep; [|done]
    | context [SetPinched ?a ?b ?x] =>
      let E := fresh "Hrun" in
      destruct (SetPinched a b x) as [? ?] eqn:E; simpl in Hstep
    end;
    simplify_eq
  end.

(** Looks at pointer [q] in a world where pointer [p] was just written. *)
Ltac at_pointer p q :=
  unfold set_object; simpl;
  destruct (decide (p = q)) as [->|?];
  [ rewrite ?fn_lookup_insert | rewrite ?fn_lookup_insert_ne by done ].

Lemma TryStartTouching_fields sc fuel comp this b this' calls :
  TryStartTouching sc fuel comp this = Some (b, this', calls) →
  bIsPinched this' = bIsPinched this ∧ TouchRadius this' = TouchRadius this ∧
  SphereRadius this' = SphereRadius this.
Proof.
  intros Hrun. apply TryStartTouching_shape in Hrun
    as [(_ & -> & _) | (t & _ & _ & -> & _)]; done.
Qed.

Lemma TryStopTouching_fields sc fuel comp this b this' calls :
  TryStopTouching sc fuel comp this = Some (b, this', calls) →
  bIsPinched this' = bIsPinched this ∧ TouchRadius this' = TouchRadius this ∧
  SphereRadius this' = SphereRadius this.
Proof.
  intros Hrun. apply TryStopTouching_shape in Hrun
    as [(_ & -> & _) | (t & _ & _ & -> & _)]; done.
Qed.

Lemma SetPinched_fields sc b this this' calls :
  SetPinched sc b this = (this', calls) →
  this' = set_bIsPinched b this ∧
  Forall (λ c, callee c ∈ TouchedTargets this) calls.
Proof.
  intros Hrun. split.
  - rewrite <- (SetPinched_shape sc b this). by rewrite Hrun.
  - pose proof (SetPinched_callees sc b this) as Hc. by rewrite Hrun in Hc.
Qed.

Lemma sent_by_callees (P : node → Prop) p (cs : list Call) :
  Forall (λ c, P (callee c)) cs →
  Forall (λ c : ptr * Call, P (callee c.2)) (sent_by p cs).
Proof. unfold sent_by. induction 1; simpl; constructor; done. Qed.

(** ** Pinch transitions in general *)

Lemma SetPinched_to_target sc b this t :
  bIsPinched this = negb b →
  to_target t (SetPinched sc b this).2
  = if decide (t ∈ TouchedTargets this ∧ Resolves sc t = true)
    then (if b then [Execute PinchStarted t this] else [])
         ++ [Execute PinchEnded t this]
    else [].
Proof.
  intros Hp. unfold SetPinched. rewrite Hp. destruct b; simpl.
  all: destruct (decide (t ∈ TouchedTargets this)) as [Hin|Hnot].
  all: try (rewrite (to_target_flat_map_once (SetPinched_one sc _ this) t);
            [ unfold SetPinched_one; destruct (Resolves sc t) eqn:Hl;
              [ by rewrite decide_True | rewrite decide_False; [done | intros [_ ?]; done] ]
            | apply SetPinched_one_callee
            | apply NoDup_elements
            | by apply elem_of_elements ]).
  all: rewrite (to_target_flat_map_absent (SetPinched_one sc _ this) t);
    [ rewrite decide_False; [done | intros [? _]; done]
    | apply SetPinched_one_callee
    | by rewrite elem_of_elements ].
Qed.

Lemma count_of_singles this n (l : list node) :
  count_of n (flat_map (λ t, [Execute PinchEnded t this]) l)
  = match n with PinchEnded => length l | _ => 0 end.
Proof.
  induction l as [|x l IH]; [by destruct n|].
  change (flat_map ?f (x :: l)) with (f x ++ flat_map f l).
  rewrite count_of_app, IH. by destruct n.
Qed.

(** X1: releasing the pinch sends exactly one pinch-end, and nothing else, to
    every touched target whose weak pointer resolves, and nothing to any
    other component; no pinch-start is sent. *)
Theorem SetPinched_release_notifies_once sc this t :
  bIsPinched this = true →
  to_target t (SetPinched sc false this).2
  = (if decide (t ∈ TouchedTargets this ∧ Resolves sc t = true)
     then [Execute PinchEnded t this] else []) ∧
  count_of PinchStarted (SetPinched sc false this).2 = 0 ∧
  length (SetPinched sc false this).2 = length (live_targets sc this).
Proof.
  intros Hp. split; [by rewrite SetPinched_to_target|].
  rewrite SetPinched_disable by done. simpl. rewrite count_of_singles.
  split; [done|]. induction (live_targets sc this) as [|x l IH]; simpl; lia.
Qed.

Lemma SetPinched_release_notifies_once_witness :
  let this := demo_pointer {[1%positive; 5%positive]} true in
  bIsPinched this = true ∧
  to_target 1%positive (SetPinched demo_scene false this).2
  = (if decide (1%positive ∈ TouchedTargets this ∧ Resolves demo_scene 1%positive = true)
     then [Execute PinchEnded 1%positive this] else []) ∧
  count_of PinchStarted (SetPinched demo_scene false this).2 = 0 ∧
  length (SetPinched demo_scene false this).2 = length (live_targets demo_scene this).
Proof.
  intros this.
  assert (Hp : bIsPinched this = true) by reflexivity.
  split; [exact Hp|].
  exact (SetPinched_release_notifies_once demo_scene this 1%positive Hp).
Defined.

(** X2: starting to pinch sends every touched target whose weak pointer
    resolves a pinch-start directly followed by a pinch-end, and nothing to
    any other component: with [N] such targets that is [N] pinch-starts and
    [N] pinch-ends, [2 * N] calls in all. *)
Theorem SetPinched_enable_notifies_twice sc this t :
  bIsPinched this = false →
  to_target t (SetPinched sc true this).2
  = (if decide (t ∈ TouchedTargets this ∧ Resolves sc t = true)
     then [Execute PinchStarted t this; Execute PinchEnded t this] else []) ∧
  count_of PinchStarted (SetPinched sc true this).2 = length (live_targets sc this) ∧
  count_of PinchEnded (SetPinched sc true this).2 = length (live_targets sc this) ∧
  length (SetPinched sc true this).2 = 2 * length (live_targets sc this).
Proof.
  intros Hp. split; [by rewrite SetPinched_to_target|].
  rewrite SetPinched_enable by done. simpl. rewrite !count_of_pairs.
  repeat split. induction (live_targets sc this) as [|x l IH]; simpl; lia.
Qed.

Lemma SetPinched_enable_notifies_twice_witness :
  let this := demo_pointer {[1%positive; 4%positive; 5%positive]} false in
  bIsPinched this = false ∧
  to_target 4%positive (SetPinched demo_scene true this).2
  = (if decide (4%positive ∈ TouchedTargets this ∧ Resolves demo_scene 4%positive = true)
     then [Execute PinchStarted 4%positive this; Execute PinchEnded 4%positive this]
     else []) ∧
  count_of PinchStarted (SetPinched demo_scene true this).2
  = length (live_targets demo_scene this) ∧
  count_of PinchEnded (SetPinched demo_scene true this).2
  = length (live_targets demo_scene this) ∧
  length (SetPinched demo_scene true this).2 = 2 * length (live_targets demo_scene this).
Proof.
  intros this.
  assert (Hp : bIsPinched this = false) by reflexivity.
  split; [exact Hp|].
  exact (SetPinched_enable_notifies_twice demo_scene this 4%positive Hp).
Defined.

(** X3: whatever the pinch state was, after [SetPinched(Enable)] the call
    [GetPinched()] answers [Enable]; the touched set and the radius are as
    before, and repeating the same [SetPinched(Enable)] sends nothing and
    changes nothing. *)
Theorem SetPinched_then_GetPinched sc Enable this :
  GetPinched (SetPinched sc Enable this).1 = Enable ∧
  TouchedTargets (SetPinched sc Enable this).1 = TouchedTargets this ∧
  TouchRadius (SetPinched sc Enable this).1 = TouchRadius this ∧
  SetPinched sc Enable (SetPinched sc Enable this).1
  = ((SetPinched sc Enable this).1, []).
Proof.
  rewrite SetPinched_shape. repeat split. by apply SetPinched_same.
Qed.

(** ** Overlap-end in general *)

(** X4: overlap-end removes the nearest component of the attachment chain,
    the starting one included, that the pointer touches, and leaves every
    other touched target touched.  That component is removed before it is
    notified: the handlers of pinch-end (sent when the pointer is pinched) and
    touch-end no longer find it among the touched targets. *)
Theorem TryStopTouching_nearest_touched sc fuel comp d t this :
  nearest_touched sc this comp d (Some t) → d < fuel →
  ∃ calls,
    TryStopTouching sc fuel comp this
      = Some (true, set_TouchedTargets (TouchedTargets this ∖ {[t]}) this, calls) ∧
    sent calls
      = (if ImplementsTargetInterface sc t
         then (if bIsPinched this then [(PinchEnded, t)] else []) ++ [(TouchEnded, t)]
         else []) ∧
    Forall (λ c, IsTouching (seen c) t = false) calls.
Proof.
  intros Hw Hlt. rewrite (TryStopTouching_walk sc d fuel comp (Some t) this Hw Hlt).
  simpl. eexists. split; [done|].
  assert (Hgone : IsTouching
            (set_TouchedTargets (TouchedTargets this ∖ {[t]}) this) t = false).
  { apply bool_decide_eq_false. simpl. set_solver. }
  destruct (ImplementsTargetInterface sc t), (bIsPinched this); simpl;
    split; try done; repeat constructor; exact Hgone.
Qed.

Lemma TryStopTouching_nearest_touched_witness :
  let this := demo_pointer {[1%positive; 4%positive]} false in
  nearest_touched demo_scene this (Some 3%positive) 1 (Some 1%positive) ∧ 1 < 5 ∧
  ∃ calls,
    TryStopTouching demo_scene 5 (Some 3%positive) this
      = Some (true,
              set_TouchedTargets (TouchedTargets this ∖ {[1%positive]}) this, calls) ∧
    sent calls
      = (if ImplementsTargetInterface demo_scene 1%positive
         then (if bIsPinched this then [(PinchEnded, 1%positive)] else [])
              ++ [(TouchEnded, 1%positive)]
         else []) ∧
    Forall (λ c, IsTouching (seen c) 1%positive = false) calls.
Proof.
  intros this.
  assert (H1 : nearest_touched demo_scene this (Some 3%positive) 1 (Some 1%positive)).
  { split; [|split; [reflexivity | simpl; set_solver]].
    intros d' a Hlt Ha. assert (d' = 0) as -> by lia.
    simpl in Ha. simplify_eq. simpl. set_solver. }
  assert (L : 1 < 5) by lia.
  split; [exact H1 | split; [exact L|]].
  exact (TryStopTouching_nearest_touched demo_scene 5 (Some 3%positive) 1 1%positive
           this H1 L).
Defined.

Lemma walk_finds_nothing sc P comp d :
  walk_finds sc P comp d None → ∀ d' a, ancestor sc d' comp = Some a → ¬ P a.
Proof.
  intros (Hbelow & Hend & _) d' a Ha. destruct (decide (d' < d)) as [Hlt|Hge].
  - by apply (Hbelow d' a).
  - rewrite (ancestor_end_mono sc d d' comp Hend) in Ha by lia. done.
Qed.

Lemma size_remove_touched (s : gset node) t :
  t ∈ s → size (s ∖ {[t]}) + 1 = size s.
Proof.
  intros Hin. rewrite size_difference by set_solver. rewrite size_singleton.
  assert (size s ≠ 0) by (apply size_non_empty_iff; set_solver). lia.
Qed.

(** X5: on a scene whose attachment chains end, overlap-end always answers.
    It answers [true] exactly when some component of the chain is touched,
    and then the touched set has lost exactly one element; when it answers
    [false] it has sent nothing and the pointer is as it was. *)
Theorem TryStopTouching_answer sc H fuel comp this :
  chains_end_within sc H → H < fuel →
  ∃ b this' calls,
    TryStopTouching sc fuel comp this = Some (b, this', calls) ∧
    (b = true ↔ ∃ d a, ancestor sc d comp = Some a ∧ a ∈ TouchedTargets this) ∧
    size (TouchedTargets this') + (if b then 1 else 0) = size (TouchedTargets this) ∧
    (b = false → this' = this ∧ calls = []).
Proof.
  intros Hend Hlt.
  destruct (walk_finds_total sc (λ c, c ∈ TouchedTargets this) H comp
              (chains_end_within_ancestor sc H comp Hend)) as (d & r & Hle & Hw).
  assert (Hd : d < fuel) by lia.
  rewrite (TryStopTouching_walk sc d fuel comp r this Hw Hd).
  destruct r as [t|]; simpl; eexists _, _, _; (split; [done|]).
  - destruct Hw as (_ & Ht & Hin). split; [|split; [|done]].
    + split; [intros _; by exists d, t | done].
    + simpl. by apply size_remove_touched.
  - split; [|split; [simpl; lia | done]].
    split; [done|]. intros (d' & a & Ha & Hin).
    by destruct (walk_finds_nothing sc _ comp d Hw d' a Ha).
Qed.

Lemma TryStopTouching_answer_witness :
  let this := demo_pointer {[1%positive; 4%positive]} true in
  chains_end_within demo_scene 3 ∧ 3 < 5 ∧
  ∃ b this' calls,
    TryStopTouching demo_scene 5 (Some 3%positive) this = Some (b, this', calls) ∧
    (b = true ↔
     ∃ d a, ancestor demo_scene d (Some 3%positive) = Some a ∧ a ∈ TouchedTargets this) ∧
    size (TouchedTargets this') + (if b then 1 else 0) = size (TouchedTargets this) ∧
    (b = false → this' = this ∧ calls = []).
Proof.
  intros this.
  assert (L : 3 < 5) by lia.
  split; [exact demo_scene_chains | split; [exact L|]].
  exact (TryStopTouching_answer demo_scene 3 5 (Some 3%positive) this
           demo_scene_chains L).
Defined.

(** ** Overlap-begin in general *)

(** X6: on a scene whose attachment chains end, overlap-begin always answers.
    It answers [true] exactly when some component of the chain implements the
    target interface; it never removes a touched target and adds at most one;
    when it answers [false] it has sent nothing and the pointer is as it
    was. *)
Theorem TryStartTouching_answer sc H fuel comp this :
  chains_end_within sc H → H < fuel →
  ∃ b this' calls,
    TryStartTouching sc fuel comp this = Some (b, this', calls) ∧
    (b = true ↔ ∃ d a, ancestor sc d comp = Some a ∧ is_target sc a) ∧
    TouchedTargets this ⊆ TouchedTargets this' ∧
    size (TouchedTargets this') ≤ S (size (TouchedTargets this)) ∧
    (b = false → this' = this ∧ calls = []).
Proof.
  intros Hend Hlt.
  destruct (walk_finds_total sc (is_target sc) H comp
              (chains_end_within_ancestor sc H comp Hend)) as (d & r & Hle & Hw).
  assert (Hd : d < fuel) by lia.
  rewrite (TryStartTouching_walk sc d fuel comp r this Hw Hd).
  destruct r as [t|]; simpl; eexists _, _, _; (split; [done|]).
  - destruct Hw as (_ & Ht & Hin). split; [|split; [|split; [|done]]].
    + split; [intros _; by exists d, t | done].
    + simpl. set_solver.
    + simpl. rewrite size_union_alt, size_singleton.
      assert (size (TouchedTargets this ∖ {[t]}) ≤ size (TouchedTargets this))
        by (apply subseteq_size; set_solver).
      lia.
  - split; [|split; [done | split; [lia | done]]].
    split; [done|]. intros (d' & a & Ha & Hin).
    by destruct (walk_finds_nothing sc _ comp d Hw d' a Ha).
Qed.

Lemma TryStartTouching_answer_witness :
  let this := demo_pointer {[4%positive]} true in
  chains_end_within demo_scene 3 ∧ 3 < 5 ∧
  ∃ b this' calls,
    TryStartTouching demo_scene 5 (Some 6%positive) this = Some (b, this', calls) ∧
    (b = true ↔
     ∃ d a, ancestor demo_scene d (Some 6%positive) = Some a ∧ is_target demo_scene a) ∧
    TouchedTargets this ⊆ TouchedTargets this' ∧
    size (TouchedTargets this') ≤ S (size (TouchedTargets this)) ∧
    (b = false → this' = this ∧ calls = []).
Proof.
  intros this.
  assert (L : 3 < 5) by lia.
  split; [exact demo_scene_chains | split; [exact L|]].
  exact (TryStartTouching_answer demo_scene 3 5 (Some 6%positive) this
           demo_scene_chains L).
Defined.

(** ** Who writes which member *)

Lemma step_pinched sc fuel o w w' calls :
  step sc fuel o w = Some (w', calls) →
  ∀ q, bIsPinched (objects w' q) = pinched_after o q (bIsPinched (objects w q)).
Proof.
  intros Hstep q. step_cases Hstep p c; simpl; try done;
    try (at_pointer p q; try done).
  - by apply TryStartTouching_fields in Hrun as (-> & _).
  - by apply TryStopTouching_fields in Hrun as (-> & _).
  - by apply SetPinched_fields in Hrun as [-> _].
  - by apply TryStartTouching_fields in Hrun as (-> & _).
  - by apply TryStopTouching_fields in Hrun as (-> & _).
Qed.

(** X8: the pinch flag of a pointer is written by [SetPinched] on that
    pointer and by nothing else: after [SetPinched(Enable)] it is [Enable],
    and every other member function, [EndPlay] and [StopAllTouching]
    included, leaves the pinch flag of every pointer as it was. *)
Theorem pinch_flag_written_by_SetPinched_only sc H fuel o w :
  chains_end_within sc H → H < fuel →
  ∃ w' calls,
    step sc fuel o w = Some (w', calls) ∧
    ∀ q, bIsPinched (objects w' q)
         = match o with
           | CallSetPinched p Enable =>
             if decide (p = q) then Enable else bIsPinched (objects w q)
           | _ => bIsPinched (objects w q)
           end.
Proof.
  intros Hend Hlt.
  destruct (step_returns sc H fuel o w Hend Hlt) as ([w' calls] & Hstep).
  exists w', calls. split; [done|]. intros q.
  rewrite (step_pinched sc fuel o w w' calls Hstep q). by destruct o.
Qed.

Lemma pinch_flag_written_by_SetPinched_only_witness :
  let w := program_start (λ _, demo_pointer {[1%positive]} true) in
  let o := CallEndPlay 7%positive in
  chains_end_within demo_scene 3 ∧ 3 < 5 ∧
  ∃ w' calls,
    step demo_scene 5 o w = Some (w', calls) ∧
    ∀ q, bIsPinched (objects w' q) = bIsPinched (objects w q).
Proof.
  intros w o.
  assert (L : 3 < 5) by lia.
  split; [exact demo_scene_chains | split; [exact L|]].
  exact (pinch_flag_written_by_SetPinched_only demo_scene 3 5 o w
           demo_scene_chains L).
Defined.

(** ** What holds of every reachable world *)

Lemma step_radius sc fuel o w w' calls :
  (∀ p, radius_in_sync (objects w p)) →
  step sc fuel o w = Some (w', calls) →
  ∀ q, radius_in_sync (objects w' q).
Proof.
  intros Hsync Hstep q. unfold radius_in_sync in *.
  step_cases Hstep p c; simpl; try (at_pointer p q); simpl;
    try (apply TryStartTouching_fields in Hrun as (_ & -> & ->));
    try (apply TryStopTouching_fields in Hrun as (_ & -> & ->));
    try (apply SetPinched_fields in Hrun as [-> _]);
    solve [apply Hsync | done].
Qed.

Lemma run_radius sc fuel ops : ∀ w w' calls,
  (∀ p, radius_in_sync (objects w p)) →
  run sc fuel ops w = Some (w', calls) →
  ∀ q, radius_in_sync (objects w' q).
Proof.
  induction ops as [|o ops IH]; intros w w' calls Hsync Hrun; simpl in Hrun.
  - by simplify_eq.
  - destruct (step sc fuel o w) as [[w1 calls1]|] eqn:Hstep; [|done].
    destruct (run sc fuel ops w1) as [[w2 calls2]|] eqn:Hrest; [|done].
    simplify_eq. eapply IH; [|exact Hrest]. by eapply step_radius.
Qed.

(** X10: the constructor creates the touch sphere with the radius
    [TouchRadius], and [SetTouchRadius] writes the member and the sphere
    together; so after any sequence of operations on pointers made by the
    constructor, the sphere of every pointer has the radius that its
    [TouchRadius] member records. *)
Theorem sphere_radius_follows_TouchRadius sc H fuel ops objs :
  chains_end_within sc H → H < fuel →
  (∀ p, ∃ r b, objs p = UTouchPointer_new r b) →
  ∃ w' calls,
    run sc fuel ops (program_start objs) = Some (w', calls) ∧
    ∀ q, SphereRadius (objects w' q) = TouchRadius (objects w' q).
Proof.
  intros Hend Hlt Hnew.
  destruct (run_returns sc H fuel ops (program_start objs) Hend Hlt)
    as ([w' calls] & Hrun).
  exists w', calls. split; [done|].
  apply (run_radius sc fuel ops (program_start objs) w' calls); [|done].
  intros p. simpl. by destruct (Hnew p) as (r & b & ->).
Qed.

Lemma sphere_radius_follows_TouchRadius_witness :
  let objs := λ _ : ptr, UTouchPointer_new 2%Q false in
  let ops := [CallBeginPlay 7%positive;
              CallSetTouchRadius 7%positive 5%Q;
              CallOnPointerBeginOverlap 7%positive (Some 3%positive);
              CallSetPinched 7%positive true;
              CallEndPlay 7%positive] in
  chains_end_within demo_scene 3 ∧ 3 < 5 ∧
  (∀ p, ∃ r b, objs p = UTouchPointer_new r b) ∧
  ∃ w' calls,
    run demo_scene 5 ops (program_start objs) = Some (w', calls) ∧
    ∀ q, SphereRadius (objects w' q) = TouchRadius (objects w' q).
Proof.
  intros objs ops.
  assert (L : 3 < 5) by lia.
  assert (Hs : ∀ p, ∃ r b, objs p = UTouchPointer_new r b)
    by (intros p; exists 2%Q, false; reflexivity).
  split; [exact demo_scene_chains | split; [exact L | split; [exact Hs|]]].
  exact (sphere_radius_follows_TouchRadius demo_scene 3 5 ops objs
           demo_scene_chains L Hs).
Defined.

(** X11: only components that implement the target interface are ever put
    into a touched set: if every pointer starts with targets only among its
    touched components (none, for a new pointer), then so it is after any
    sequence of operations. *)
Theorem touched_sets_hold_targets_only sc H fuel ops w :
  chains_end_within sc H → H < fuel →
  (∀ p, touches_targets_only sc (objects w p)) →
  ∃ w' calls,
    run sc fuel ops w = Some (w', calls) ∧
    ∀ p c, c ∈ TouchedTargets (objects w' p) → ImplementsTargetInterface sc c = true.
Proof.
  intros Hend Hlt Hwf.
  destruct (run_returns sc H fuel ops w Hend Hlt) as ([w' calls] & Hrun).
  exists w', calls. split; [done|]. intros p c Hc.
  by apply (run_targets_only sc fuel ops w w' calls Hwf Hrun p c).
Qed.

Lemma touched_sets_hold_targets_only_witness :
  let w := program_start (λ _, UTouchPointer_new 2%Q false) in
  let ops := [CallBeginPlay 7%positive;
              CallOnPointerBeginOverlap 7%positive (Some 3%positive);
              CallOnPointerBeginOverlap 7%positive (Some 6%positive);
              CallOnPointerBeginOverlap 8%positive (Some 4%positive);
              CallOnPointerEndOverlap 7%positive (Some 6%positive)] in
  chains_end_within demo_scene 3 ∧ 3 < 5 ∧
  (∀ p, touches_targets_only demo_scene (objects w p)) ∧
  ∃ w' calls,
    run demo_scene 5 ops w = Some (w', calls) ∧
    ∀ p c, c ∈ TouchedTargets (objects w' p) →
           ImplementsTargetInterface demo_scene c = true.
Proof.
  intros w ops.
  assert (L : 3 < 5) by lia.
  assert (Hwf : ∀ p, touches_targets_only demo_scene (objects w p)).
  { intros p c Hc. simpl in Hc. set_solver. }
  split; [exact demo_scene_chains | split; [exact L | split; [exact Hwf|]]].
  exact (touched_sets_hold_targets_only demo_scene 3 5 ops w demo_scene_chains L Hwf).
Defined.

Lemma step_calls_targets sc fuel o w w' calls :
  (∀ p, touches_targets_only sc (objects w p)) →
  step sc fuel o w = Some (w', calls) →
  Forall (λ c : ptr * Call, is_target sc (callee c.2)) calls.
Proof.
  intros Hwf Hstep.
  assert (Htouched : ∀ p cs,
            Forall (λ c, callee c ∈ TouchedTargets (objects w p)) cs →
            Forall (λ c : ptr * Call, is_target sc (callee c.2)) (sent_by p cs)).
  { intros p cs Hcs. apply sent_by_callees.
    eapply list.Forall_impl; [exact Hcs|]. intros c Hc. by apply (Hwf p). }
  assert (Hstart : ∀ fuel' comp this b this' cs,
            TryStartTouching sc fuel' comp this = Some (b, this', cs) →
            Forall (λ c, is_target sc (callee c)) cs).
  { intros fuel' comp this b this' cs Hrun.
    apply TryStartTouching_shape in Hrun as [(_ & _ & ->) | (t & _ & Ht & _ & Hcs)];
      [constructor|].
    eapply list.Forall_impl; [exact Hcs|]. by intros c ->. }
  assert (Hstop : ∀ fuel' comp this b this' cs,
            TryStopTouching sc fuel' comp this = Some (b, this', cs) →
            Forall (λ c, is_target sc (callee c)) cs).
  { intros fuel' comp this b this' cs Hrun.
    apply TryStopTouching_shape in Hrun as [(_ & _ & ->) | (t & _ & _ & _ & Hcs)];
      [constructor|].
    eapply list.Forall_impl; [exact Hcs|]. by intros c [-> ?]. }
  step_cases Hstep p c; try constructor.
  - apply Htouched, StopAllTouching_callees.
  - apply sent_by_callees. by eapply Hstart.
  - apply sent_by_callees. by eapply Hstop.
  - apply Htouched. by apply SetPinched_fields in Hrun as [_ ?].
  - apply sent_by_callees. by eapply Hstart.
  - apply sent_by_callees. by eapply Hstop.
  - apply Htouched, StopAllTouching_callees.
Qed.

Lemma run_calls_targets sc fuel ops : ∀ w w' calls,
  (∀ p, touches_targets_only sc (objects w p)) →
  run sc fuel ops w = Some (w', calls) →
  Forall (λ c : ptr * Call, is_target sc (callee c.2)) calls.
Proof.
  induction ops as [|o ops IH]; intros w w' calls Hwf Hrun; simpl in Hrun.
  - simplify_eq. constructor.
  - destruct (step sc fuel o w) as [[w1 calls1]|] eqn:Hstep; [|done].
    destruct (run sc fuel ops w1) as [[w2 calls2]|] eqn:Hrest; [|done].
    simplify_eq. apply Forall_app. split.
    + by eapply step_calls_targets.
    + eapply IH; [|exact Hrest]. by eapply step_targets_only.
Qed.

(** X12: no [ITouchPointerTarget] function is ever executed on a component
    that does not implement the interface: in any sequence of operations on
    pointers that start with targets only among their touched components,
    every notification sent goes to a component that implements it. *)
Theorem notifications_go_to_targets_only sc H fuel ops w :
  chains_end_within sc H → H < fuel →
  (∀ p, touches_targets_only sc (objects w p)) →
  ∃ w' calls,
    run sc fuel ops w = Some (w', calls) ∧
    Forall (λ c : ptr * Call, ImplementsTargetInterface sc (callee c.2) = true) calls.
Proof.
  intros Hend Hlt Hwf.
  destruct (run_returns sc H fuel ops w Hend Hlt) as ([w' calls] & Hrun).
  exists w', calls. split; [done|].
  by apply (run_calls_targets sc fuel ops w w' calls Hwf Hrun).
Qed.

Lemma notifications_go_to_targets_only_witness :
  let w := program_start (λ _, UTouchPointer_new 2%Q false) in
  let ops := [CallBeginPlay 7%positive;
              CallOnPointerBeginOverlap 7%positive (Some 3%positive);
              CallSetPinched 7%positive true;
              CallOnPointerBeginOverlap 7%positive (Some 6%positive);
              CallEndPlay 7%positive] in
  chains_end_within demo_scene 3 ∧ 3 < 5 ∧
  (∀ p, touches_targets_only demo_scene (objects w p)) ∧
  ∃ w' calls,
    run demo_scene 5 ops w = Some (w', calls) ∧
    Forall (λ c : ptr * Call,
              ImplementsTargetInterface demo_scene (callee c.2) = true) calls.
Proof.
  intros w ops.
  assert (L : 3 < 5) by lia.
  assert (Hwf : ∀ p, touches_targets_only demo_scene (objects w p)).
  { intros p c Hc. simpl in Hc. set_solver. }
  split; [exact demo_scene_chains | split; [exact L | split; [exact Hwf|]]].
  exact (notifications_go_to_targets_only demo_scene 3 5 ops w demo_scene_chains L Hwf).
Defined.

(** ** Ending play *)

Lemma filter_ne_absent (p : ptr) (a : list ptr) :
  p ∉ a → filter (λ q, q ≠ p) a = a.
Proof.
  induction a as [|x a IH]; intros Hnot; [done|].
  rewrite filter_cons_True by set_solver. f_equal. apply IH. set_solver.
Qed.

Lemma filter_ne_twice (p : ptr) (a : list ptr) :
  filter (λ q, q ≠ p) (filter (λ q, q ≠ p) a) = filter (λ q, q ≠ p) a.
Proof.
  apply filter_ne_absent. rewrite list_elem_of_filter. tauto.
Qed.

(** X13: ending play twice is the same as ending it once: the second
    [EndPlay] sends no notification and leaves the registry and every pointer
    object as the first one left them. *)
Theorem EndPlay_twice sc p w :
  (EndPlay sc p (EndPlay sc p w).1).2 = [] ∧
  Pointers (EndPlay sc p (EndPlay sc p w).1).1 = Pointers (EndPlay sc p w).1 ∧
  ∀ q, objects (EndPlay sc p (EndPlay sc p w).1).1 q = objects (EndPlay sc p w).1 q.
Proof.
  unfold EndPlay. simpl. rewrite fn_lookup_insert. simpl.
  rewrite elements_empty. split; [done|]. split.
  - unfold TArray_Remove. apply filter_ne_twice.
  - intros q. destruct (decide (p = q)) as [->|Hne].
    + by rewrite !fn_lookup_insert.
    + by rewrite !fn_lookup_insert_ne.
Qed.

(** X14: after [StopAllTouching], and so after [EndPlay], nothing is left to
    stop: an overlap-end on any component of a scene whose chains end answers
    [false], sends nothing and leaves the pointer as it is. *)
Theorem TryStopTouching_after_StopAllTouching sc H fuel p comp w :
  chains_end_within sc H → H < fuel →
  TryStopTouching sc fuel comp ((StopAllTouching sc (objects w p)).1)
  = Some (false, (StopAllTouching sc (objects w p)).1, []) ∧
  TryStopTouching sc fuel comp (objects (EndPlay sc p w).1 p)
  = Some (false, objects (EndPlay sc p w).1 p, []).
Proof.
  intros Hend Hlt.
  assert (Hstop : TryStopTouching sc fuel comp ((StopAllTouching sc (objects w p)).1)
                  = Some (false, (StopAllTouching sc (objects w p)).1, [])).
  { apply (TryStopTouching_walk sc H fuel comp None); [|done].
    split; [|split; [by apply chains_end_within_ancestor | done]].
    intros d a _ _. simpl. set_solver. }
  split; [exact Hstop|].
  unfold EndPlay. simpl. rewrite fn_lookup_insert. exact Hstop.
Qed.

Lemma TryStopTouching_after_StopAllTouching_witness :
  let w := program_start (λ _, demo_pointer {[1%positive; 4%positive]} true) in
  chains_end_within demo_scene 3 ∧ 3 < 5 ∧
  TryStopTouching demo_scene 5 (Some 3%positive)
    ((StopAllTouching demo_scene (objects w 7%positive)).1)
  = Some (false, (StopAllTouching demo_scene (objects w 7%positive)).1, []) ∧
  TryStopTouching demo_scene 5 (Some 3%positive)
    (objects (EndPlay demo_scene 7%positive w).1 7%positive)
  = Some (false, objects (EndPlay demo_scene 7%positive w).1 7%positive, []).
Proof.
  intros w.
  assert (L : 3 < 5) by lia.
  split; [exact demo_scene_chains | split; [exact L|]].
  exact (TryStopTouching_after_StopAllTouching demo_scene 3 5 7%positive
           (Some 3%positive) w demo_scene_chains L).
Defined.

(** X15: [BeginPlay] followed by [EndPlay] of a pointer that was not
    registered gives back the registry as it was, in the same order; the
    other pointer objects are as they were. *)
Theorem BeginPlay_then_EndPlay sc p w :
  p ∉ Pointers w →
  GetAllPointers (EndPlay sc p (BeginPlay p w)).1 = GetAllPointers w ∧
  ∀ q, q ≠ p → objects (EndPlay sc p (BeginPlay p w)).1 q = objects w q.
Proof.
  intros Hnot. unfold EndPlay, BeginPlay, GetAllPointers. simpl. split.
  - unfold TArray_Remove, TArray_Add. rewrite list.filter_app.
    rewrite filter_ne_absent by done.
    rewrite filter_cons_False by (intros Hne; by apply Hne).
    by rewrite filter_nil, app_nil_r.
  - intros q Hne. by rewrite fn_lookup_insert_ne.
Qed.

Lemma BeginPlay_then_EndPlay_witness :
  let w := {| Pointers := [8%positive; 9%positive];
              objects := λ _, demo_pointer {[1%positive]} true |} in
  (7%positive ∉ Pointers w) ∧
  GetAllPointers (EndPlay demo_scene 7%positive (BeginPlay 7%positive w)).1
  = GetAllPointers w ∧
  ∀ q, q ≠ 7%positive →
       objects (EndPlay demo_scene 7%positive (BeginPlay 7%positive w)).1 q
       = objects w q.
Proof.
  intros w.
  assert (Hnot : 7%positive ∉ Pointers w) by (simpl; set_solver).
  split; [exact Hnot|].
  exact (BeginPlay_then_EndPlay demo_scene 7%positive w Hnot).
Defined.

(** X16: [BeginPlay] does not look whether the pointer is registered already.
    Starting from a registry without duplicates, the registry after one
    operation is without duplicates exactly when the operation is not a
    [BeginPlay] of a pointer that is in the registry; every other operation
    keeps it free of duplicates. *)
Theorem registry_duplicates sc H fuel o w :
  chains_end_within sc H → H < fuel → NoDup (Pointers w) →
  ∃ w' calls,
    step sc fuel o w = Some (w', calls) ∧
    (NoDup (GetAllPointers w') ↔ ∀ p, o = CallBeginPlay p → p ∉ Pointers w).
Proof.
  intros Hend Hlt Hnd.
  destruct (step_registry sc H fuel o w Hend Hlt) as (w' & calls & Hstep & Hreg).
  exists w', calls. split; [done|]. unfold GetAllPointers. rewrite Hreg.
  destruct o as [p|p|p c|p c|p b|p|p r| |p c|p c|p]; simpl;
    try (split; [intros _ q Hq; done | intros _; done]).
  - rewrite list.NoDup_app. split.
    + intros (_ & Hdisj & _) q Hq Hin. simplify_eq.
      apply (Hdisj q Hin). set_solver.
    + intros Hfresh. split; [done|]. split; [|apply NoDup_singleton].
      intros q Hin Hq. apply list_elem_of_singleton in Hq as ->.
      by apply (Hfresh p).
  - split; [intros _ q Hq; done|]. intros _. by apply list.NoDup_filter.
Qed.

Lemma registry_duplicates_witness :
  let w := {| Pointers := [7%positive; 8%positive];
              objects := λ _, demo_pointer ∅ false |} in
  let o := CallBeginPlay 7%positive in
  chains_end_within demo_scene 3 ∧ 3 < 5 ∧ NoDup (Pointers w) ∧
  ∃ w' calls,
    step demo_scene 5 o w = Some (w', calls) ∧
    (NoDup (GetAllPointers w') ↔ ∀ p, o = CallBeginPlay p → p ∉ Pointers w).
Proof.
  intros w o.
  assert (L : 3 < 5) by lia.
  assert (Hnd : NoDup (Pointers w)).
  { simpl. apply list.NoDup_cons. split; [set_solver|]. apply NoDup_singleton. }
  split; [exact demo_scene_chains | split; [exact L | split; [exact Hnd|]]].
  exact (registry_duplicates demo_scene 3 5 o w demo_scene_chains L Hnd).
Defined.

(** ** A touch from beginning to end *)

(** X17: on a pointer that touches targets only, an overlap-begin directly
    followed by the overlap-end of the same component, whose nearest target
    was not touched before, sends that target touch-start first and touch-end
    last, with pinch-start and pinch-end in between when the pointer is
    pinched, and gives back the pointer exactly as it was. *)
Theorem begin_then_end_brackets sc fuel comp d t this :
  touches_targets_only sc this → nearest_target sc comp d (Some t) →
  t ∉ TouchedTargets this → d < fuel →
  ∃ calls,
    overlaps sc fuel comp [Begin; End_] this = Some (this, calls) ∧
    sent calls
    = if bIsPinched this
      then [(TouchStarted, t); (PinchStarted, t); (PinchEnded, t); (TouchEnded, t)]
      else [(TouchStarted, t); (TouchEnded, t)].
Proof.
  intros Hwf Hw Hfresh Hlt. simpl. unfold OnPointerBeginOverlap, OnPointerEndOverlap.
  rewrite (TryStartTouching_walk sc d fuel comp (Some t) this Hw Hlt). simpl.
  rewrite (TryStopTouching_walk sc d fuel comp (Some t) _
             (nearest_touched_after_begin sc comp d t this Hwf Hw) Hlt).
  simpl. destruct Hw as (_ & _ & Ht). unfold is_target in Ht. rewrite Ht.
  assert (Hset : ({[t]} ∪ TouchedTargets this) ∖ {[t]} = TouchedTargets this)
    by set_solver.
  unfold set_TouchedTargets at 1 2. simpl. rewrite Hset.
  eexists. split.
  - do 2 f_equal. by destruct this.
  - by destruct (bIsPinched this).
Qed.

Lemma begin_then_end_brackets_witness :
  let this := demo_pointer {[4%positive]} true in
  touches_targets_only demo_scene this ∧
  nearest_target demo_scene (Some 3%positive) 1 (Some 1%positive) ∧
  (1%positive ∉ TouchedTargets this) ∧ 1 < 5 ∧
  ∃ calls,
    overlaps demo_scene 5 (Some 3%positive) [Begin; End_] this = Some (this, calls) ∧
    sent calls
    = if bIsPinched this
      then [(TouchStarted, 1%positive); (PinchStarted, 1%positive);
            (PinchEnded, 1%positive); (TouchEnded, 1%positive)]
      else [(TouchStarted, 1%positive); (TouchEnded, 1%positive)].
Proof.
  intros this.
  assert (Hwf : touches_targets_only demo_scene this).
  { intros c Hc. unfold is_target.
    assert (c = 4%positive) as -> by set_solver. reflexivity. }
  assert (H1 : nearest_target demo_scene (Some 3%positive) 1 (Some 1%positive))
    by settle_walk.
  assert (Hf : 1%positive ∉ TouchedTargets this) by (simpl; set_solver).
  assert (L : 1 < 5) by lia.
  split; [exact Hwf | split; [exact H1 | split; [exact Hf | split; [exact L|]]]].
  exact (begin_then_end_brackets demo_scene 5 (Some 3%positive) 1 1%positive this
           Hwf H1 Hf L).
Defined.
